(** * Hot-module-replacement core of the dev server

    A shallow embedding of [packages/vite/src/node/server/hmr.ts]:
    the accepted-dependency lexer ([lexAcceptedHmrDeps]), the upward
    graph walk ([propagateUpdate], [invalidateChain]), the prune
    notification ([handlePrunedModules]) and the per-file orchestrator
    ([handleHMRUpdate]).

    Conventions of the embedding.
    - A JavaScript string is a [string]; each [ascii] stands for one
      code unit in the range 0..255.
    - Module nodes are heap objects.  A node is named by a [NodeId] and
      the heap is a finite map from names to records, so that two
      references to one node see each other's writes.
    - A JavaScript [Set] is a list in insertion order.
    - [Date.now()] is an input of the operation that reads the clock.
    - [ws.send] appends the payload to the list of sent messages. *)

From Stdlib Require Import String Ascii ZArith List Lia.
From stdpp Require Import gmap strings list fin_maps.

Local Open Scope string_scope.
Local Open Scope list_scope.
#[local] Set Warnings "-register-all".

(** ** JavaScript strings *)

Module Js.

(** The double-quote character, code unit 34. *)
Definition dquote : ascii := "034"%char.
Definition squote : ascii := "'"%char.
Definition backtick : ascii := "`"%char.

(** A one-character string holding the double quote. *)
Definition dq : string := String dquote EmptyString.

(** [s.charAt(i)]: [None] stands for the empty string JavaScript
    returns past the end. *)
Definition charAt (s : string) (i : nat) : option ascii := String.get i s.

(** [s += char]. *)
Definition push (s : string) (c : ascii) : string :=
  s +:+ String c EmptyString.

(** [/\s/.test(char)] on a single code unit below 256: tab, line
    feed, vertical tab, form feed, carriage return, space and the
    no-break space. *)
Definition isWhitespace (c : ascii) : bool :=
  let n := nat_of_ascii c in
  ((9 <=? n)%nat && (n <=? 13)%nat) || (n =? 32)%nat || (n =? 160)%nat.

(** [s.startsWith(p)]. *)
Definition startsWith (s p : string) : bool := String.prefix p s.

(** [s.endsWith(p)]. *)
Definition endsWith (s p : string) : bool :=
  let n := String.length s in
  let m := String.length p in
  (m <=? n)%nat && String.eqb (String.substring (n - m) m s) p.

(** [set.add(x)] on a [Set<string>]: insertion order is kept and a
    value already present is not added again. *)
Definition Set_add (x : string) (s : list string) : list string :=
  if bool_decide (x ∈ s) then s else s ++ [x].

End Js.

(** ** The accepted-dependency lexer *)

Module Lexer.
Import Js.

Inductive LexerState :=
| inCall
| inSingleQuoteString
| inDoubleQuoteString
| inTemplateString
| inArray.

(** The local variables of [lexAcceptedHmrDeps] together with the
    caller's [urls] set, which the function mutates in place. *)
Record Regs := mkRegs {
  state : LexerState;
  prevState : LexerState;
  currentDep : string;
  urls : list string
}.

(** How a call ends: a returned boolean, or the error raised by
    [error(pos)] with its [err.pos].  Both carry the contents of the
    caller's set at that moment, since the set is shared. *)
Inductive LexResult :=
| Returned (selfAccepts : bool) (out : list string)
| Thrown (pos : nat) (out : list string).

Inductive Step :=
| Next (r : Regs)
| Stop (res : LexResult).

(** [error(pos)]: builds the error, sets [err.pos] and throws. *)
Definition error (pos : nat) (r : Regs) : Step := Stop (Thrown pos (urls r)).

(** The body of the [switch] for the character at offset [i].  The
    [default] arm of the source is unreachable, [LexerState] having
    exactly the five cases. *)
Definition lex_char (code : string) (i : nat) (char : ascii) (r : Regs) : Step :=
  match state r with
  | inCall | inArray =>
      if Ascii.eqb char squote then
        Next (mkRegs inSingleQuoteString (state r) (currentDep r) (urls r))
      else if Ascii.eqb char dquote then
        Next (mkRegs inDoubleQuoteString (state r) (currentDep r) (urls r))
      else if Ascii.eqb char backtick then
        Next (mkRegs inTemplateString (state r) (currentDep r) (urls r))
      else if isWhitespace char then
        Next r
      else
        match state r with
        | inCall =>
            if Ascii.eqb char "["%char then
              Next (mkRegs inArray (prevState r) (currentDep r) (urls r))
            else
              Stop (Returned true (urls r))
        | inArray =>
            if Ascii.eqb char "]"%char then
              Stop (Returned false (urls r))
            else if Ascii.eqb char ","%char then
              Next r
            else
              error i r
        | _ => Next r
        end
  | inSingleQuoteString =>
      if Ascii.eqb char squote then
        Next (mkRegs (prevState r) (prevState r) "" (Set_add (currentDep r) (urls r)))
      else
        Next (mkRegs (state r) (prevState r) (push (currentDep r) char) (urls r))
  | inDoubleQuoteString =>
      if Ascii.eqb char dquote then
        Next (mkRegs (prevState r) (prevState r) (currentDep r)
                (Set_add (currentDep r) (urls r)))
      else
        Next (mkRegs (state r) (prevState r) (push (currentDep r) char) (urls r))
  | inTemplateString =>
      if Ascii.eqb char backtick then
        Next (mkRegs (prevState r) (prevState r) "" (Set_add (currentDep r) (urls r)))
      else if Ascii.eqb char "$"%char
              && bool_decide (charAt code (S i) = Some "{"%char) then
        error i r
      else
        Next (mkRegs (state r) (prevState r) (push (currentDep r) char) (urls r))
  end.

(** The [for] loop from offset [i].  [fuel] counts the iterations
    left before [i] reaches [code.length]; running out of it is the
    loop's own exit, followed by the final [return false]. *)
Fixpoint lex_from (fuel : nat) (code : string) (i : nat) (r : Regs) : LexResult :=
  match fuel with
  | O => Returned false (urls r)
  | S fuel' =>
      match charAt code i with
      | None => Returned false (urls r)
      | Some char =>
          match lex_char code i char r with
          | Next r' => lex_from fuel' code (S i) r'
          | Stop res => res
          end
      end
  end.

Definition lexAcceptedHmrDeps (code : string) (start : nat) (urls0 : list string)
  : LexResult :=
  lex_from (String.length code - start) code start (mkRegs inCall inCall "" urls0).

(** The loop has run from offset [i] with registers [r] to offset
    [j] with registers [r'] without returning or throwing. *)
Inductive reaches (code : string) : nat -> Regs -> nat -> Regs -> Prop :=
| reaches_here i r : reaches code i r i r
| reaches_next i r char r' j r'' :
    charAt code i = Some char ->
    lex_char code i char r = Next r' ->
    reaches code (S i) r' j r'' ->
    reaches code i r j r''.

End Lexer.

(** ** Source text handed to the lexer *)

Module Literal.
Import Js.

(** The text [s] stands in [code] from offset [i] on. *)
Definition occurs (code : string) (i : nat) (s : string) : Prop :=
  forall k, k < String.length s -> charAt code (i + k) = charAt s k.

(** Every character of [s] passes the test [f]. *)
Fixpoint allChars (f : ascii -> bool) (s : string) : bool :=
  match s with
  | EmptyString => true
  | String c rest => f c && allChars f rest
  end.

(** A character that may stand inside a literal quoted with [q]: not
    the quote itself and, between backticks, not a dollar sign. *)
Definition literalChar (q : ascii) (c : ascii) : bool :=
  negb (Ascii.eqb c q) && negb (Ascii.eqb q backtick && Ascii.eqb c "$"%char).

(** The literal with text [s] written between two quotes [q]. *)
Definition quoted (q : ascii) (s : string) : string :=
  String q (s +:+ String q EmptyString).

(** The array literal whose entries are the texts of [l], each
    between quotes [q], separated by commas. *)
Definition arrayLiteral (q : ascii) (l : list string) : string :=
  "[" +:+ String.concat "," (quoted q <$> l) +:+ "]".

(** [urls.add] of each text of [l] in turn. *)
Definition addAll (l : list string) (urls0 : list string) : list string :=
  foldl (fun us s => Set_add s us) urls0 l.

End Literal.

(** ** The module graph *)

Module Graph.

(** A reference to a module node. *)
Abbreviation NodeId := nat (only parsing).

(** The cached compile output held by a node; only its presence or
    absence is observed by the code below. *)
Definition TransformResult := string.

(** Modelled from the spec: [ModuleNode] is declared in
    [./moduleGraph], outside this file.  The fields are the ones the
    data model lists; [importers] and [acceptedHmrDeps] are sets of
    node references, [transformResult] is the cache or [null]. *)
Record ModuleNode := mkNode {
  url : string;
  file : string;
  type : string;
  isSelfAccepting : bool;
  acceptedHmrDeps : list NodeId;
  importers : list NodeId;
  lastHMRTimestamp : Z;
  transformResult : option TransformResult
}.

(** The heap of module nodes. *)
Abbreviation Store := (gmap nat ModuleNode) (only parsing).

(** The [Set] of boundary objects handed to [propagateUpdate].  Every
    [add] inserts a freshly built object literal, which no earlier
    member can be identical to, so the set grows by one at its end. *)
Abbreviation Boundaries := (list (nat * nat)) (only parsing).

(** How a computation over the heap ends.  [Dangling] reports a
    reference to a node the heap does not hold, which a JavaScript
    heap cannot contain; [OutOfFuel] reports that the recursion bound
    of the model was hit; [Rejected] is a rejected plugin promise. *)
Inductive Outcome (A : Type) :=
| Ret (a : A)
| Dangling (id : NodeId)
| OutOfFuel
| Rejected (reason : string).
Arguments Ret {A} a.
Arguments Dangling {A} id.
Arguments OutOfFuel {A}.
Arguments Rejected {A} reason.

(** The two assignments in the body of [invalidateChain]'s callback. *)
Definition stamp (timestamp : Z) (n : ModuleNode) : ModuleNode :=
  mkNode (url n) (file n) (type n) (isSelfAccepting n) (acceptedHmrDeps n)
         (importers n) timestamp None.

(** [chain.forEach(node => ...)].  Every member of a chain has been
    read by the walk before it is written. *)
Definition invalidateChain (chain : list NodeId) (timestamp : Z) (st : Store) : Store :=
  foldl (fun s id => alter (stamp timestamp) id s) st chain.

(** The [for] loop over [node.importers]; [rec] is the recursive call
    of [propagateUpdate] on an importer with its sub-chain. *)
Definition importersLoop
    (rec : NodeId -> list NodeId -> Store -> Boundaries -> Outcome (bool * Store * Boundaries))
    (node : NodeId) (timestamp : Z) (currentChain : list NodeId)
  : list NodeId -> Store -> Boundaries -> Outcome (bool * Store * Boundaries) :=
  fix loop (imps : list NodeId) (st : Store) (boundaries : Boundaries) :=
    match imps with
    | [] => Ret (false, st, boundaries)
    | importer :: rest =>
        let subChain := currentChain ++ [importer] in
        match st !! importer with
        | None => Dangling importer
        | Some imp =>
            if bool_decide (node ∈ acceptedHmrDeps imp) then
              loop rest (invalidateChain subChain timestamp st)
                   (boundaries ++ [(importer, node)])
            else if bool_decide (importer ∈ currentChain) then
              loop rest st boundaries
            else
              match rec importer subChain st boundaries with
              | Ret (true, st', boundaries') => Ret (true, st', boundaries')
              | Ret (false, st', boundaries') => loop rest st' boundaries'
              | Dangling id => Dangling id
              | OutOfFuel => OutOfFuel
              | Rejected reason => Rejected reason
              end
        end
    end.

(** [propagateUpdate] with an explicit bound on the depth of the
    recursion.  The result is [hasDeadEnd], the heap and the
    boundary set as the call leaves them. *)
Fixpoint propagateUpdate_fuel (fuel : nat) (node : NodeId) (timestamp : Z)
    (currentChain : list NodeId) (st : Store) (boundaries : Boundaries)
  : Outcome (bool * Store * Boundaries) :=
  match fuel with
  | O => OutOfFuel
  | S fuel' =>
      match st !! node with
      | None => Dangling node
      | Some n =>
          if isSelfAccepting n then
            Ret (false, invalidateChain currentChain timestamp st,
                 boundaries ++ [(node, node)])
          else if bool_decide (importers n = []) then
            Ret (true, st, boundaries)
          else
            importersLoop
              (fun importer subChain s b =>
                 propagateUpdate_fuel fuel' importer timestamp subChain s b)
              node timestamp currentChain (importers n) st boundaries
      end
  end.

(** The loop of a call of [propagateUpdate_fuel] at bound [S fuel]. *)
Definition walkImporters (fuel : nat) (node : NodeId) (timestamp : Z)
    (currentChain : list NodeId)
  : list NodeId -> Store -> Boundaries -> Outcome (bool * Store * Boundaries) :=
  importersLoop
    (fun importer subChain s b =>
       propagateUpdate_fuel fuel importer timestamp subChain s b)
    node timestamp currentChain.

(** The call as [handleHMRUpdate] makes it: [currentChain] takes its
    default [[node]].  A chain never repeats a node, so its length,
    and with it the depth of the recursion, stays within the number
    of nodes of the heap. *)
Definition propagateUpdate (node : NodeId) (timestamp : Z) (st : Store)
    (boundaries : Boundaries) : Outcome (bool * Store * Boundaries) :=
  propagateUpdate_fuel (S (size st)) node timestamp [node] st boundaries.

(** In every node of the heap, the importers are nodes of the heap. *)
Definition closed (st : Store) : Prop :=
  map_Forall (fun _ n => Forall (fun i => is_Some (st !! i)) (importers n)) st.

(** The fields the walk and the prune handler never assign. *)
Definition same_shape (n n' : ModuleNode) : Prop :=
  url n' = url n /\ file n' = file n /\ type n' = type n /\
  isSelfAccepting n' = isSelfAccepting n /\
  acceptedHmrDeps n' = acceptedHmrDeps n /\ importers n' = importers n.

(** Two heaps hold the same nodes, equal in every field but
    [lastHMRTimestamp] and [transformResult]. *)
Definition same_graph (st st' : Store) : Prop :=
  forall id, option_Forall2 same_shape (st !! id) (st' !! id).

(** A node carries the timestamp of the walk and has no cached
    transform result. *)
Definition invalidated (timestamp : Z) (st : Store) (id : NodeId) : Prop :=
  exists n, st !! id = Some n /\ lastHMRTimestamp n = timestamp /\ transformResult n = None.

(** Both nodes of every boundary are nodes of the heap. *)
Definition boundaries_in (st : Store) (bs : Boundaries) : Prop :=
  Forall (fun b => is_Some (st !! b.1) /\ is_Some (st !! b.2)) bs.

(** The walk from [node] reports a dead end. *)
Definition deadEnd (timestamp : Z) (st : Store) (node : NodeId) : Prop :=
  exists st' boundaries, propagateUpdate node timestamp st [] = Ret (true, st', boundaries).

(** A boundary the walk can have recorded: a self-accepting node
    paired with itself, or an importer of [b.2] that lists [b.2] among
    its accepted dependencies. *)
Definition acceptanceEdge (st : Store) (b : NodeId * NodeId) : Prop :=
  (b.1 = b.2 /\ exists n, st !! b.1 = Some n /\ isSelfAccepting n = true) \/
  (exists imp v, st !! b.1 = Some imp /\ st !! b.2 = Some v /\
                 b.2 ∈ acceptedHmrDeps imp /\ b.1 ∈ importers v).

(** [b] is one of the importers of [a]. *)
Definition importedBy (st : Store) (a b : NodeId) : Prop :=
  exists n, st !! a = Some n /\ b ∈ importers n.

(** A node that accepts nothing itself and that nobody imports. *)
Definition orphan (st : Store) (id : NodeId) : Prop :=
  exists n, st !! id = Some n /\ isSelfAccepting n = false /\ importers n = [].

End Graph.

(** ** Messages, the prune handler and the orchestrator *)

Module Hmr.
Import Js Graph.

(** The payloads given to [ws.send]: object literals with their
    property names, in the order the source writes them. *)
Inductive JsValue :=
| JStr (s : string)
| JNum (n : Z)
| JArr (items : list JsValue)
| JObj (fields : list (string * JsValue)).

(** The names of the properties of an object. *)
Definition keys (v : JsValue) : list string :=
  match v with
  | JObj fields => fst <$> fields
  | _ => []
  end.

(** [v[name]]; [None] is [undefined]. *)
Definition prop (name : string) (v : JsValue) : option JsValue :=
  match v with
  | JObj fields => snd <$> List.find (fun kv => String.eqb (fst kv) name) fields
  | _ => None
  end.

(** [mods.forEach(mod => mod.lastHMRTimestamp = t)]. *)
Definition touch (t : Z) (n : ModuleNode) : ModuleNode :=
  mkNode (url n) (file n) (type n) (isSelfAccepting n) (acceptedHmrDeps n)
         (importers n) t (transformResult n).

(** [[...mods].map(m => m.url)]. *)
Fixpoint urlsOf (st : Store) (mods : list NodeId) : Outcome (list string) :=
  match mods with
  | [] => Ret []
  | m :: rest =>
      match st !! m with
      | None => Dangling m
      | Some n =>
          match urlsOf st rest with
          | Ret us => Ret (url n :: us)
          | Dangling id => Dangling id
          | OutOfFuel => OutOfFuel
          | Rejected reason => Rejected reason
          end
      end
  end.

(** [handlePrunedModules(mods, { ws })] with [t] the value of
    [Date.now()].  The result is the list of messages sent and the
    heap. *)
Definition handlePrunedModules (mods : list NodeId) (t : Z) (st : Store)
  : Outcome (list JsValue * Store) :=
  let st' := foldl (fun s m => alter (touch t) m s) st mods in
  match urlsOf st' mods with
  | Ret paths =>
      Ret ([JObj [("type", JStr "prune"); ("paths", JArr (JStr <$> paths))]], st')
  | Dangling id => Dangling id
  | OutOfFuel => OutOfFuel
  | Rejected reason => Rejected reason
  end.

(** What the promise of a [handleHotUpdate] hook settles to: a
    rejection, or a value that is either falsy ([None]: [undefined],
    [null], no [return]) or an array of nodes.  An array is an object
    and so is truthy whatever its length. *)
Inductive HookResult :=
| HookRejected (reason : string)
| HookResolved (value : option (list NodeId)).

(** A plugin with its optional hook.  The hook is handed the server
    and live nodes, hence reads and may write the heap.  It is taken
    not to write into the array it is handed. *)
Record Plugin := mkPlugin {
  handleHotUpdate : option (string -> list NodeId -> Store -> HookResult * Store)
}.

Record ResolvedConfig := mkConfig {
  configPath : option string;
  root : string;
  plugins : list Plugin
}.

Record ModuleGraph := mkModuleGraph {
  getModulesByFile : string -> option (list NodeId)
}.

Record ViteDevServer := mkServer {
  config : ResolvedConfig;
  moduleGraph : ModuleGraph
}.

(** The loop over [config.plugins]:
    [filteredMods = (await hook(file, filteredMods, server)) || filteredMods]. *)
Fixpoint applyPlugins (ps : list Plugin) (file : string) (filteredMods : list NodeId)
    (st : Store) : Outcome (list NodeId * Store) :=
  match ps with
  | [] => Ret (filteredMods, st)
  | plugin :: rest =>
      match handleHotUpdate plugin with
      | None => applyPlugins rest file filteredMods st
      | Some hook =>
          match hook file filteredMods st with
          | (HookRejected reason, _) => Rejected reason
          | (HookResolved (Some mods'), st') => applyPlugins rest file mods' st'
          | (HookResolved None, st') => applyPlugins rest file filteredMods st'
          end
      end
  end.

(** No hook of the listed plugins creates or deletes a node, or
    writes a field other than the two stamped ones. *)
Definition hooksKeepGraph (ps : list Plugin) : Prop :=
  Forall (fun p => forall hook, handleHotUpdate p = Some hook ->
                   forall file mods st, same_graph st (hook file mods st).2) ps.

(** The object literal built for one boundary. *)
Definition updateRecord (st : Store) (timestamp : Z) (b : NodeId * NodeId)
  : Outcome JsValue :=
  match st !! b.1 with
  | None => Dangling b.1
  | Some boundary =>
      match st !! b.2 with
      | None => Dangling b.2
      | Some acceptedVia =>
          Ret (JObj [("type", JStr (type boundary +:+ "-update"));
                     ("timestamp", JNum timestamp);
                     ("path", JStr (url boundary));
                     ("accpetedPath", JStr (url acceptedVia))])
      end
  end.

(** The record [updateRecord] builds, from the two nodes read. *)
Definition recordOf (boundary acceptedVia : ModuleNode) (timestamp : Z) : JsValue :=
  JObj [("type", JStr (type boundary +:+ "-update"));
        ("timestamp", JNum timestamp);
        ("path", JStr (url boundary));
        ("accpetedPath", JStr (url acceptedVia))].

(** [[...boundaries].map(...)]. *)
Fixpoint updateRecords (st : Store) (timestamp : Z) (bs : Boundaries)
  : Outcome (list JsValue) :=
  match bs with
  | [] => Ret []
  | b :: rest =>
      match updateRecord st timestamp b with
      | Ret u =>
          match updateRecords st timestamp rest with
          | Ret us => Ret (u :: us)
          | Dangling id => Dangling id
          | OutOfFuel => OutOfFuel
          | Rejected reason => Rejected reason
          end
      | Dangling id => Dangling id
      | OutOfFuel => OutOfFuel
      | Rejected reason => Rejected reason
      end
  end.

Definition fullReload : JsValue := JObj [("type", JStr "full-reload")].

Definition fullReloadAt (path : string) : JsValue :=
  JObj [("type", JStr "full-reload"); ("path", JStr path)].

Definition updateMessage (updates : list JsValue) : JsValue :=
  JObj [("type", JStr "update"); ("updates", JArr updates)].

(** The loop over [filteredMods] and the final [ws.send]; [updates]
    is the array filled so far. *)
Fixpoint updateLoop (mods : list NodeId) (timestamp : Z) (updates : list JsValue)
    (st : Store) : Outcome (list JsValue * Store) :=
  match mods with
  | [] => Ret ([updateMessage updates], st)
  | mod_ :: rest =>
      match propagateUpdate mod_ timestamp st [] with
      | Ret (true, st', _) => Ret ([fullReload], st')
      | Ret (false, st', boundaries) =>
          match updateRecords st' timestamp boundaries with
          | Ret us => updateLoop rest timestamp (updates ++ us) st'
          | Dangling id => Dangling id
          | OutOfFuel => OutOfFuel
          | Rejected reason => Rejected reason
          end
      | Dangling id => Dangling id
      | OutOfFuel => OutOfFuel
      | Rejected reason => Rejected reason
      end
  end.

Section Orchestrator.

(** [CLIENT_DIR] of [../constants], [path.relative] of Node and the
    [slash] package are not part of this file. *)
Variable CLIENT_DIR : string.
Variable path_relative : string -> string -> string.
Variable slash : string -> string.

(** [handleHMRUpdate(file, server)] with [now] the value [Date.now()]
    returns when it is read.  The result is the list of messages sent
    and the heap. *)
Definition handleHMRUpdate (file : string) (server : ViteDevServer) (now : Z)
    (st : Store) : Outcome (list JsValue * Store) :=
  if bool_decide (configPath (config server) = Some file) then
    Ret ([], st)
  else if endsWith file ".env" then
    Ret ([], st)
  else if endsWith file ".html" || startsWith file CLIENT_DIR then
    Ret ([fullReloadAt ("/" +:+ slash (path_relative (root (config server)) file))], st)
  else
    match getModulesByFile (moduleGraph server) file with
    | None => Ret ([], st)
    | Some mods =>
        match applyPlugins (plugins (config server)) file mods st with
        | Ret (filteredMods, st1) => updateLoop filteredMods now [] st1
        | Dangling id => Dangling id
        | OutOfFuel => OutOfFuel
        | Rejected reason => Rejected reason
        end
    end.

End Orchestrator.

End Hmr.

(** ** Small graphs and servers *)

Module Examples.
Import Js Graph Hmr.

(** A script module that has not been stamped yet and holds a cached
    transform result. *)
Definition script (u : string) (selfAccepting : bool) (accepted importedBy : list nat)
  : ModuleNode :=
  mkNode u u "js" selfAccepting accepted importedBy 0%Z (Some "cached").

(** A imports B, B imports C, C imports A; nobody accepts anything.
    Node 0 is A, 1 is B, 2 is C. *)
Definition cycle3 : gmap nat ModuleNode :=
  list_to_map [(0, script "/a.js" false [] [2]);
               (1, script "/b.js" false [] [0]);
               (2, script "/c.js" false [] [1])].

(** The same cycle, with A accepting B. *)
Definition cycle3Accepting : gmap nat ModuleNode :=
  list_to_map [(0, script "/a.js" false [1] [2]);
               (1, script "/b.js" false [] [0]);
               (2, script "/c.js" false [] [1])].

(** Node 0 is imported by node 1, which accepts it, and by node 2,
    which nobody imports and which accepts nothing. *)
Definition twoImporters : gmap nat ModuleNode :=
  list_to_map [(0, script "/n.js" false [] [1; 2]);
               (1, script "/a.js" false [0] []);
               (2, script "/b.js" false [] [])].

(** One self-accepting module. *)
Definition selfAccepting1 : gmap nat ModuleNode :=
  list_to_map [(0, script "/n.js" true [] [])].

(** Node 0 accepts itself; node 1 is a dead end. *)
Definition acceptingThenDeadEnd : gmap nat ModuleNode :=
  list_to_map [(0, script "/n.js" true [] []);
               (1, script "/m.js" false [] [])].

(** A plugin whose hook settles to the given value and leaves the
    heap alone. *)
Definition constantHook (value : option (list nat)) : Plugin :=
  mkPlugin (Some (fun _ _ st => (HookResolved value, st))).

(** A server whose graph maps the file [/src/n.js] to [mods]. *)
Definition serverFor (mods : list nat) (ps : list Plugin) : ViteDevServer :=
  mkServer (mkConfig (Some "/vite.config.js") "/" ps)
           (mkModuleGraph (fun f => if String.eqb f "/src/n.js" then Some mods else None)).

(** [handleHMRUpdate] with the client directory at [/client] and
    paths that are already relative and slash-separated. *)
Definition runHMRUpdate := handleHMRUpdate "/client" (fun _ f => f) (fun p => p).

End Examples.

(** * Properties *)

Import Js Lexer Literal Graph Hmr.

(** ** Heaps that differ in the two stamped fields only *)

Lemma same_shape_refl n : same_shape n n.
Proof. repeat split. Qed.

Lemma same_shape_trans a b c : same_shape a b -> same_shape b c -> same_shape a c.
Proof.
  unfold same_shape. intros (?&?&?&?&?&?) (?&?&?&?&?&?).
  repeat split; congruence.
Qed.

Lemma same_shape_stamp ts n : same_shape n (stamp ts n).
Proof. repeat split. Qed.

Lemma same_shape_touch t n : same_shape n (touch t n).
Proof. repeat split. Qed.

Lemma same_graph_refl (st : gmap nat ModuleNode) : same_graph st st.
Proof.
  intros id. destruct (st !! id); constructor. apply same_shape_refl.
Qed.

Lemma same_graph_trans (a b c : gmap nat ModuleNode) :
  same_graph a b -> same_graph b c -> same_graph a c.
Proof.
  intros Hab Hbc id. specialize (Hab id). specialize (Hbc id).
  destruct Hab as [x y Hxy|]; inversion Hbc; subst; constructor.
  eapply same_shape_trans; eassumption.
Qed.

Lemma same_graph_lookup (st st' : gmap nat ModuleNode) id n :
  same_graph st st' -> st !! id = Some n ->
  exists n', st' !! id = Some n' /\ same_shape n n'.
Proof.
  intros H Hn. specialize (H id). rewrite Hn in H.
  inversion H; subst. eauto.
Qed.

Lemma same_graph_is_Some (st st' : gmap nat ModuleNode) id :
  same_graph st st' -> is_Some (st !! id) <-> is_Some (st' !! id).
Proof.
  intros H. specialize (H id).
  destruct H; split; intros [? ?]; eauto; discriminate.
Qed.

Lemma same_graph_dom (st st' : gmap nat ModuleNode) :
  same_graph st st' -> dom st' = dom st.
Proof.
  intros H. apply set_eq. intros id. rewrite !elem_of_dom.
  symmetry. by apply same_graph_is_Some.
Qed.

Lemma same_graph_size (st st' : gmap nat ModuleNode) :
  same_graph st st' -> size st' = size st.
Proof.
  intros H. rewrite <- !size_dom. by rewrite (same_graph_dom _ _ H).
Qed.

Lemma same_graph_alter (f : ModuleNode -> ModuleNode) (st : gmap nat ModuleNode) id :
  (forall n, same_shape n (f n)) -> same_graph st (alter f id st).
Proof.
  intros Hf j. destruct (decide (id = j)) as [->|Hne].
  - rewrite lookup_alter_eq. destruct (st !! j); constructor. apply Hf.
  - rewrite lookup_alter_ne by done. destruct (st !! j); constructor.
    apply same_shape_refl.
Qed.

Lemma same_graph_closed (st st' : gmap nat ModuleNode) :
  same_graph st st' -> closed st -> closed st'.
Proof.
  intros H Hc id n' Hn'. specialize (H id) as Hid. rewrite Hn' in Hid.
  inversion Hid as [n ? Hsh Hn|]; subst. symmetry in Hn.
  specialize (Hc id n Hn). simpl in Hc.
  destruct Hsh as (_&_&_&_&_&->).
  eapply Forall_impl; [exact Hc|]. intros i Hi. simpl in Hi.
  by apply (same_graph_is_Some st st' i H).
Qed.

(** ** [invalidateChain] *)

Lemma stamp_stamp ts n : stamp ts (stamp ts n) = stamp ts n.
Proof. reflexivity. Qed.

Lemma invalidateChain_cons c chain ts (st : gmap nat ModuleNode) :
  invalidateChain (c :: chain) ts st = invalidateChain chain ts (alter (stamp ts) c st).
Proof. reflexivity. Qed.

Lemma invalidateChain_lookup_notin chain ts (st : gmap nat ModuleNode) id :
  id ∉ chain -> invalidateChain chain ts st !! id = st !! id.
Proof.
  revert st. induction chain as [|c chain IH]; intros st Hid; [done|].
  rewrite invalidateChain_cons, IH by set_solver.
  apply lookup_alter_ne. set_solver.
Qed.

Lemma invalidateChain_lookup_in chain ts (st : gmap nat ModuleNode) id :
  id ∈ chain -> invalidateChain chain ts st !! id = stamp ts <$> st !! id.
Proof.
  revert st. induction chain as [|c chain IH]; intros st Hid; [set_solver|].
  rewrite invalidateChain_cons.
  destruct (decide (id ∈ chain)) as [Hin|Hnin].
  - rewrite IH by done. destruct (decide (c = id)) as [->|Hne].
    + rewrite lookup_alter_eq. destruct (st !! id); done.
    + by rewrite lookup_alter_ne.
  - rewrite invalidateChain_lookup_notin by done.
    apply elem_of_cons in Hid as [Hc|?]; [|done].
    rewrite Hc. by rewrite lookup_alter_eq.
Qed.

Lemma same_graph_invalidateChain chain ts (st : gmap nat ModuleNode) :
  same_graph st (invalidateChain chain ts st).
Proof.
  intros id. destruct (decide (id ∈ chain)).
  - rewrite invalidateChain_lookup_in by done.
    destruct (st !! id); constructor. apply same_shape_stamp.
  - rewrite invalidateChain_lookup_notin by done.
    destruct (st !! id); constructor. apply same_shape_refl.
Qed.

Lemma invalidated_invalidateChain_in chain ts (st : gmap nat ModuleNode) id :
  id ∈ chain -> is_Some (st !! id) -> invalidated ts (invalidateChain chain ts st) id.
Proof.
  intros Hin [n Hn]. exists (stamp ts n).
  rewrite invalidateChain_lookup_in, Hn by done. done.
Qed.

Lemma invalidated_invalidateChain chain ts (st : gmap nat ModuleNode) id :
  invalidated ts st id -> invalidated ts (invalidateChain chain ts st) id.
Proof.
  intros (n & Hn & Ht & Hr). destruct (decide (id ∈ chain)).
  - apply invalidated_invalidateChain_in; eauto.
  - exists n. by rewrite invalidateChain_lookup_notin.
Qed.

(** ** Invariants of the walk *)

Section WalkInvariant.

Variable timestamp : Z.

(** A property of the heap and the boundary set that survives the one
    compound write the walk performs: invalidating a chain and adding
    a boundary whose two nodes are in the heap. *)
Variable I : gmap nat ModuleNode -> list (nat * nat) -> Prop.

Hypothesis I_step :
  forall (st : gmap nat ModuleNode) bs chain id via,
    I st bs -> is_Some (st !! id) -> is_Some (st !! via) ->
    I (invalidateChain chain timestamp st) (bs ++ [(id, via)]).

Lemma importersLoop_invariant
    (rec : nat -> list nat -> gmap nat ModuleNode -> list (nat * nat) ->
           Outcome (bool * gmap nat ModuleNode * list (nat * nat)))
    node chain :
  (forall imp sub s b r,
      I s b -> rec imp sub s b = Ret r -> same_graph s r.1.2 /\ I r.1.2 r.2) ->
  forall imps (st : gmap nat ModuleNode) bs r,
    is_Some (st !! node) -> I st bs ->
    importersLoop rec node timestamp chain imps st bs = Ret r ->
    same_graph st r.1.2 /\ I r.1.2 r.2.
Proof.
  intros Hrec. induction imps as [|imp rest IH]; intros st bs r Hnode HI Hrun.
  - simpl in Hrun. inversion Hrun; subst; simpl. split; [apply same_graph_refl|done].
  - simpl in Hrun. destruct (st !! imp) as [n|] eqn:Himp; [|discriminate].
    case_bool_decide.
    + pose proof (same_graph_invalidateChain (chain ++ [imp]) timestamp st) as Hsg.
      apply IH in Hrun as [Hsg' HI'].
      * split; [eapply same_graph_trans; eassumption|done].
      * by apply (same_graph_is_Some _ _ node Hsg).
      * apply I_step; eauto.
    + case_bool_decide; [by apply IH in Hrun|].
      destruct (rec imp (chain ++ [imp]) st bs) as [[[b s'] bs']| | |] eqn:Hcall;
        try discriminate.
      apply Hrec in Hcall as [Hsg HI']; [|done]. simpl in Hsg, HI'.
      destruct b.
      * inversion Hrun; subst; simpl. done.
      * apply IH in Hrun as [Hsg' HI'']; [| by apply (same_graph_is_Some _ _ node Hsg) |done].
        split; [eapply same_graph_trans; eassumption|done].
Qed.

Lemma propagateUpdate_invariant fuel :
  forall node chain (st : gmap nat ModuleNode) bs r,
    I st bs ->
    propagateUpdate_fuel fuel node timestamp chain st bs = Ret r ->
    same_graph st r.1.2 /\ I r.1.2 r.2.
Proof.
  induction fuel as [|fuel IH]; intros node chain st bs r HI Hrun; [discriminate|].
  simpl in Hrun. destruct (st !! node) as [n|] eqn:Hnode; [|discriminate].
  destruct (isSelfAccepting n).
  - inversion Hrun; subst; simpl.
    split; [apply same_graph_invalidateChain|apply I_step; eauto].
  - case_bool_decide.
    + inversion Hrun; subst; simpl. split; [apply same_graph_refl|done].
    + eapply importersLoop_invariant in Hrun; eauto.
Qed.

Lemma walkImporters_invariant fuel node chain imps (st : gmap nat ModuleNode) bs r :
  is_Some (st !! node) -> I st bs ->
  walkImporters fuel node timestamp chain imps st bs = Ret r ->
  same_graph st r.1.2 /\ I r.1.2 r.2.
Proof.
  intros Hnode HI Hrun. unfold walkImporters in Hrun.
  eapply importersLoop_invariant in Hrun; eauto.
  intros imp sub s b r' Hs Hcall. eapply propagateUpdate_invariant; eauto.
Qed.

End WalkInvariant.

(** The walk leaves the graph as it found it. *)
Lemma propagateUpdate_same_graph fuel node ts chain (st : gmap nat ModuleNode) bs b st' bs' :
  propagateUpdate_fuel fuel node ts chain st bs = Ret (b, st', bs') ->
  same_graph st st'.
Proof.
  intros Hrun.
  by apply (propagateUpdate_invariant ts (fun _ _ => True)) in Hrun as [? _].
Qed.

(** A node invalidated at some point of the walk stays so to its end. *)
Lemma propagateUpdate_keeps_invalidated fuel node ts chain
    (st : gmap nat ModuleNode) bs b st' bs' id :
  invalidated ts st id ->
  propagateUpdate_fuel fuel node ts chain st bs = Ret (b, st', bs') ->
  invalidated ts st' id.
Proof.
  intros Hinv Hrun.
  apply (propagateUpdate_invariant ts (fun s _ => invalidated ts s id)) in Hrun as [_ ?];
    [done| |done].
  intros. by apply invalidated_invalidateChain.
Qed.

Lemma propagateUpdate_boundaries_in fuel node ts chain
    (st : gmap nat ModuleNode) bs b st' bs' :
  boundaries_in st bs ->
  propagateUpdate_fuel fuel node ts chain st bs = Ret (b, st', bs') ->
  boundaries_in st' bs'.
Proof.
  intros Hin Hrun.
  apply (propagateUpdate_invariant ts boundaries_in) in Hrun as [_ ?]; [done| |done].
  clear. intros st bs chain id via Hbs Hid Hvia.
  pose proof (same_graph_invalidateChain chain ts st) as Hsg.
  unfold boundaries_in. rewrite Forall_app, Forall_singleton. simpl. split.
  - eapply Forall_impl; [exact Hbs|]. intros [x y] [? ?]; simpl in *.
    split; by apply (same_graph_is_Some _ _ _ Hsg).
  - split; by apply (same_graph_is_Some _ _ _ Hsg).
Qed.

(** ** The walk returns *)

Lemma same_shape_sym a b : same_shape a b -> same_shape b a.
Proof. unfold same_shape. intros (?&?&?&?&?&?). repeat split; congruence. Qed.

Lemma same_graph_sym (a b : gmap nat ModuleNode) : same_graph a b -> same_graph b a.
Proof.
  intros H id. specialize (H id). destruct H; constructor. by apply same_shape_sym.
Qed.

(** Extending the chain by a node of the heap that is not on it leaves
    strictly fewer nodes off the chain. *)
Lemma off_chain_shrinks (st : gmap nat ModuleNode) (chain : list nat) imp :
  is_Some (st !! imp) -> imp ∉ chain ->
  size (dom st ∖ list_to_set (C := gset nat) (chain ++ [imp]))
  < size (dom st ∖ list_to_set (C := gset nat) chain).
Proof.
  intros Himp Hnot. apply subset_size.
  apply elem_of_dom in Himp.
  assert (Hin : imp ∈ dom st ∖ list_to_set (C := gset nat) chain).
  { apply elem_of_difference. split; [done|]. by rewrite elem_of_list_to_set. }
  split.
  - intros x. rewrite !elem_of_difference, !elem_of_list_to_set, elem_of_app.
    tauto.
  - intros Hsub. specialize (Hsub imp Hin).
    rewrite elem_of_difference, elem_of_list_to_set, elem_of_app in Hsub.
    destruct Hsub as [_ Hsub]. apply Hsub. right. by apply list_elem_of_singleton.
Qed.

Lemma importersLoop_returns
    (rec : nat -> list nat -> gmap nat ModuleNode -> list (nat * nat) ->
           Outcome (bool * gmap nat ModuleNode * list (nat * nat)))
    node ts chain (st0 : gmap nat ModuleNode) :
  (forall imp s b,
      same_graph st0 s -> imp ∉ chain -> is_Some (s !! imp) ->
      exists r, rec imp (chain ++ [imp]) s b = Ret r /\ same_graph s r.1.2) ->
  forall imps (st : gmap nat ModuleNode) bs,
    same_graph st0 st ->
    Forall (fun i => is_Some (st0 !! i)) imps ->
    exists r, importersLoop rec node ts chain imps st bs = Ret r.
Proof.
  intros Hrec. induction imps as [|imp rest IH]; intros st bs Hsg Himps.
  - simpl. eauto.
  - apply Forall_cons in Himps as [Himp Hrest]. simpl.
    apply (same_graph_is_Some _ _ imp Hsg) in Himp as Himp'.
    destruct Himp' as [n Hn]. rewrite Hn.
    case_bool_decide.
    + apply IH; [|done].
      eapply same_graph_trans; [exact Hsg|apply same_graph_invalidateChain].
    + case_bool_decide; [by apply IH|].
      destruct (Hrec imp st bs) as ([[b s'] bs'] & -> & Hsg'); eauto.
      simpl in Hsg'. destruct b; [eauto|].
      apply IH; [|done]. eapply same_graph_trans; eassumption.
Qed.

Lemma propagateUpdate_returns ts fuel :
  forall node chain (st : gmap nat ModuleNode) bs,
    closed st -> is_Some (st !! node) ->
    size (dom st ∖ list_to_set (C := gset nat) chain) < fuel ->
    exists r, propagateUpdate_fuel fuel node ts chain st bs = Ret r.
Proof.
  induction fuel as [|fuel IH]; intros node chain st bs Hcl [n Hn] Hfuel; [lia|].
  simpl. rewrite Hn. destruct (isSelfAccepting n); [eauto|].
  case_bool_decide; [eauto|].
  apply (importersLoop_returns _ node ts chain st); [|apply same_graph_refl|].
  - intros imp s b Hsg Hnot Himp.
    destruct (IH imp (chain ++ [imp]) s b) as [[[b' s'] bs'] Hr].
    + by apply (same_graph_closed st).
    + done.
    + rewrite (same_graph_dom _ _ Hsg).
      apply (same_graph_is_Some _ _ imp Hsg) in Himp.
      pose proof (off_chain_shrinks st chain imp Himp Hnot). lia.
    + exists (b', s', bs'). split; [done|]. simpl.
      eapply propagateUpdate_same_graph; eassumption.
  - exact (Hcl node n Hn).
Qed.

Lemma propagateUpdate_default_returns ts (st : gmap nat ModuleNode) node bs :
  closed st -> is_Some (st !! node) ->
  exists r, propagateUpdate node ts st bs = Ret r.
Proof.
  intros Hcl Hnode. unfold propagateUpdate.
  apply propagateUpdate_returns; [done|done|].
  rewrite <- size_dom. apply Nat.lt_succ_r, subseteq_size.
  intros x. rewrite elem_of_difference. tauto.
Qed.

(** A result reached within some bound is reached within any larger one. *)
Lemma importersLoop_mono
    (rec1 rec2 : nat -> list nat -> gmap nat ModuleNode -> list (nat * nat) ->
                 Outcome (bool * gmap nat ModuleNode * list (nat * nat)))
    node ts chain :
  (forall imp sub s b r, rec1 imp sub s b = Ret r -> rec2 imp sub s b = Ret r) ->
  forall imps (st : gmap nat ModuleNode) bs r,
    importersLoop rec1 node ts chain imps st bs = Ret r ->
    importersLoop rec2 node ts chain imps st bs = Ret r.
Proof.
  intros Hrec. induction imps as [|imp rest IH]; intros st bs r Hrun; [done|].
  simpl in *. destruct (st !! imp); [|done].
  case_bool_decide; [by apply IH|].
  case_bool_decide; [by apply IH|].
  destruct (rec1 imp (chain ++ [imp]) st bs) as [[[b s'] bs']| | |] eqn:Hcall;
    try discriminate.
  rewrite (Hrec _ _ _ _ _ Hcall). destruct b; [done|by apply IH].
Qed.

Lemma propagateUpdate_fuel_mono ts fuel :
  forall fuel' node chain (st : gmap nat ModuleNode) bs r,
    fuel <= fuel' ->
    propagateUpdate_fuel fuel node ts chain st bs = Ret r ->
    propagateUpdate_fuel fuel' node ts chain st bs = Ret r.
Proof.
  induction fuel as [|fuel IH]; intros fuel' node chain st bs r Hle Hrun; [discriminate|].
  destruct fuel' as [|fuel']; [lia|]. simpl in *.
  destruct (st !! node); [|done]. destruct (isSelfAccepting _); [done|].
  case_bool_decide; [done|].
  eapply importersLoop_mono; [|exact Hrun].
  intros imp sub s b r' Hcall. apply IH; [lia|done].
Qed.

(** ** The verdict of the walk depends on the graph alone *)

Lemma importersLoop_shape
    (rec1 rec2 : nat -> list nat -> gmap nat ModuleNode -> list (nat * nat) ->
                 Outcome (bool * gmap nat ModuleNode * list (nat * nat)))
    node ts chain :
  (forall imp sub (s1 s2 : gmap nat ModuleNode) b1 b2 r1,
      same_graph s1 s2 -> rec1 imp sub s1 b1 = Ret r1 ->
      exists r2, rec2 imp sub s2 b2 = Ret r2 /\ r2.1.1 = r1.1.1 /\
                 same_graph r1.1.2 r2.1.2) ->
  forall imps (st1 st2 : gmap nat ModuleNode) bs1 bs2 r1,
    same_graph st1 st2 ->
    importersLoop rec1 node ts chain imps st1 bs1 = Ret r1 ->
    exists r2, importersLoop rec2 node ts chain imps st2 bs2 = Ret r2 /\
               r2.1.1 = r1.1.1 /\ same_graph r1.1.2 r2.1.2.
Proof.
  intros Hrec. induction imps as [|imp rest IH]; intros st1 st2 bs1 bs2 r1 Hsg Hrun.
  - simpl in *. inversion Hrun; subst. eexists. split; [done|]. simpl. done.
  - simpl in *. destruct (st1 !! imp) as [n1|] eqn:H1; [|discriminate].
    destruct (same_graph_lookup _ _ _ _ Hsg H1) as (n2 & -> & Hsh).
    destruct Hsh as (_&_&_&_&->&_).
    case_bool_decide.
    + eapply IH; [|exact Hrun].
      eapply same_graph_trans; [apply same_graph_sym, same_graph_invalidateChain|].
      eapply same_graph_trans; [exact Hsg|apply same_graph_invalidateChain].
    + case_bool_decide; [by eapply IH|].
      destruct (rec1 imp (chain ++ [imp]) st1 bs1) as [[[b s1'] bs1']| | |] eqn:Hcall;
        try discriminate.
      destruct (Hrec _ _ _ st2 _ bs2 _ Hsg Hcall) as ([[b2 s2'] bs2'] & -> & Hb & Hsg').
      simpl in Hb, Hsg'. subst b2. destruct b.
      * inversion Hrun; subst. eexists. split; [done|]. simpl. done.
      * by eapply IH.
Qed.

Lemma propagateUpdate_shape ts fuel :
  forall node chain (st1 st2 : gmap nat ModuleNode) bs1 bs2 r1,
    same_graph st1 st2 ->
    propagateUpdate_fuel fuel node ts chain st1 bs1 = Ret r1 ->
    exists r2, propagateUpdate_fuel fuel node ts chain st2 bs2 = Ret r2 /\
               r2.1.1 = r1.1.1 /\ same_graph r1.1.2 r2.1.2.
Proof.
  induction fuel as [|fuel IH]; intros node chain st1 st2 bs1 bs2 r1 Hsg Hrun;
    [discriminate|].
  simpl in *. destruct (st1 !! node) as [n1|] eqn:H1; [|discriminate].
  destruct (same_graph_lookup _ _ _ _ Hsg H1) as (n2 & -> & Hsh).
  destruct Hsh as (_&_&_&->&_&->).
  destruct (isSelfAccepting n1).
  - inversion Hrun; subst. eexists. split; [done|]. simpl. split; [done|].
    eapply same_graph_trans; [apply same_graph_sym, same_graph_invalidateChain|].
    eapply same_graph_trans; [exact Hsg|apply same_graph_invalidateChain].
  - case_bool_decide.
    + inversion Hrun; subst. eexists. split; [done|]. simpl. done.
    + eapply importersLoop_shape; [|exact Hsg|exact Hrun].
      intros imp sub s1 s2 b1 b2 r1' Hs Hcall. simpl in Hcall.
      eapply IH; [exact Hs|exact Hcall].
Qed.

(** ** The lexer *)

Lemma charAt_None (s : string) i : charAt s i = None <-> String.length s <= i.
Proof.
  unfold charAt. revert i. induction s as [|c s IH]; intros i; simpl.
  - split; [lia|done].
  - destruct i as [|i]; [split; [done|lia]|].
    rewrite IH. lia.
Qed.

Lemma charAt_Some_lt (s : string) i c : charAt s i = Some c -> i < String.length s.
Proof.
  intros H. destruct (decide (i < String.length s)) as [|Hge]; [done|].
  assert (charAt s i = None) by (apply charAt_None; lia). congruence.
Qed.

Lemma reaches_le code i r j r' : reaches code i r j r' -> i <= j.
Proof. induction 1; lia. Qed.

(** Running the loop from a point it reaches gives the result of the
    whole run. *)
Lemma lex_from_reaches code i r j r' :
  reaches code i r j r' ->
  forall fuel, lex_from (fuel + (j - i)) code i r = lex_from fuel code j r'.
Proof.
  induction 1 as [i r|i r char r' j r'' Hc Hstep Hrest IH]; intros fuel.
  - by replace (fuel + (i - i)) with fuel by lia.
  - apply reaches_le in Hrest as Hle.
    replace (fuel + (j - i)) with (S (fuel + (j - S i))) by lia.
    simpl. rewrite Hc, Hstep. apply IH.
Qed.

Lemma lexAcceptedHmrDeps_reaches code start urls0 i r char :
  reaches code start (mkRegs inCall inCall "" urls0) i r ->
  charAt code i = Some char ->
  lexAcceptedHmrDeps code start urls0 =
    match lex_char code i char r with
    | Next r' => lex_from (String.length code - S i) code (S i) r'
    | Stop res => res
    end.
Proof.
  intros Hreach Hc. unfold lexAcceptedHmrDeps.
  apply reaches_le in Hreach as Hle. apply charAt_Some_lt in Hc as Hlt.
  replace (String.length code - start)
    with (S (String.length code - S i) + (i - start)) by lia.
  rewrite (lex_from_reaches _ _ _ _ _ Hreach). simpl. by rewrite Hc.
Qed.

(** The loop never needs more iterations than there are characters
    from its starting offset. *)
Lemma lex_from_fuel code : forall fuel i r,
  String.length code - i <= fuel ->
  lex_from fuel code i r = lex_from (String.length code - i) code i r.
Proof.
  induction fuel as [|fuel IH]; intros i r Hle.
  - by replace (String.length code - i) with 0 by lia.
  - simpl. destruct (charAt code i) as [c|] eqn:Hc.
    + apply charAt_Some_lt in Hc as Hlt.
      replace (String.length code - i) with (S (String.length code - S i)) by lia.
      simpl. rewrite Hc. destruct (lex_char code i c r); [|done].
      apply IH. lia.
    + destruct (String.length code - i); [done|]. simpl. by rewrite Hc.
Qed.

(** C3: a closing single quote or backtick adds the accumulated text
    to the set, empties the buffer and restores the previous state; a
    closing double quote adds the text and restores the state but
    leaves the buffer as it is, so that the next double-quoted entry
    is added with the earlier text in front of it.  Lexing the call
    argument of two double-quoted array entries adds [./a.js] and
    [./a.js./b.js]; without the brackets the lexer stops at the comma
    with [./a.js] alone and answers [true]. *)
Theorem double_quote_close_keeps_buffer :
  (forall code i p d us,
      lex_char code i squote (mkRegs inSingleQuoteString p d us)
      = Next (mkRegs p p "" (Set_add d us))) /\
  (forall code i p d us,
      lex_char code i backtick (mkRegs inTemplateString p d us)
      = Next (mkRegs p p "" (Set_add d us))) /\
  (forall code i p d us,
      lex_char code i dquote (mkRegs inDoubleQuoteString p d us)
      = Next (mkRegs p p d (Set_add d us))) /\
  lexAcceptedHmrDeps
    ("([" +:+ dq +:+ "./a.js" +:+ dq +:+ "," +:+ dq +:+ "./b.js" +:+ dq +:+ "])") 1 []
  = Returned false ["./a.js"; "./a.js./b.js"] /\
  lexAcceptedHmrDeps
    ("(" +:+ dq +:+ "./a.js" +:+ dq +:+ "," +:+ dq +:+ "./b.js" +:+ dq +:+ ")") 1 []
  = Returned true ["./a.js"].
Proof. repeat split. Qed.

(** C8: when the loop arrives at offset [i] in the template-string
    state and finds a dollar sign followed by an opening brace, or in
    the array state and finds a character that is no quote, no closing
    bracket, no comma and no whitespace, the call ends with the error
    of [error(i)]: nothing in the function catches it, and its [pos]
    is [i]. *)
Theorem lexer_error_carries_offset code start urls0 i r char :
  reaches code start (mkRegs inCall inCall "" urls0) i r ->
  charAt code i = Some char ->
  (state r = inTemplateString /\ char = "$"%char /\
   charAt code (S i) = Some "{"%char)
  \/ (state r = inArray /\ char <> squote /\ char <> dquote /\ char <> backtick /\
      char <> "]"%char /\ char <> ","%char /\ isWhitespace char = false) ->
  lexAcceptedHmrDeps code start urls0 = Thrown i (urls r).
Proof.
  intros Hreach Hc Hcase.
  rewrite (lexAcceptedHmrDeps_reaches _ _ _ _ _ _ Hreach Hc).
  unfold lex_char.
  destruct Hcase as [(-> & -> & Hnext)|(-> & Hs & Hd & Hb & Hr & Hm & Hw)].
  - simpl. rewrite bool_decide_true by done. done.
  - apply Ascii.eqb_neq in Hs, Hd, Hb, Hr, Hm.
    by rewrite Hs, Hd, Hb, Hw, Hr, Hm.
Qed.

Lemma lexer_error_carries_offset_witness :
  lexAcceptedHmrDeps "([`./a${x}`])" 1 [] = Thrown 6 [] /\
  lexAcceptedHmrDeps "([ a ])" 1 [] = Thrown 3 [].
Proof.
  split.
  - apply (lexer_error_carries_offset "([`./a${x}`])" 1 [] 6
             (mkRegs inTemplateString inArray "./a" []) "$"%char).
    + repeat (eapply reaches_next; [reflexivity|reflexivity|]). apply reaches_here.
    + reflexivity.
    + left. repeat split.
  - apply (lexer_error_carries_offset "([ a ])" 1 [] 3
             (mkRegs inArray inCall "" []) "a"%char).
    + repeat (eapply reaches_next; [reflexivity|reflexivity|]). apply reaches_here.
    + reflexivity.
    + right. repeat split; discriminate.
Defined.

(** ** The walk: boundaries, termination, atomicity *)

(** C5: on a self-accepting node the walk adds the one boundary
    [(node, node)], invalidates the chain it was given, and answers
    [false].  The equation holds at every depth bound, the smallest
    included, and for any importers of the node: no importer is read
    and no recursive call is made.  Every node of the chain then
    carries the timestamp and has no cached result; the nodes off the
    chain are as before. *)
Theorem self_accepting_is_boundary (st : gmap nat ModuleNode) node n ts :
  st !! node = Some n ->
  isSelfAccepting n = true ->
  (forall fuel chain bs,
      propagateUpdate_fuel (S fuel) node ts chain st bs
      = Ret (false, invalidateChain chain ts st, bs ++ [(node, node)])) /\
  (forall chain id, id ∈ chain -> is_Some (st !! id) ->
      invalidated ts (invalidateChain chain ts st) id) /\
  (forall chain id, id ∉ chain -> invalidateChain chain ts st !! id = st !! id) /\
  propagateUpdate node ts st []
  = Ret (false, invalidateChain [node] ts st, [(node, node)]).
Proof.
  intros Hn Hself. repeat split.
  - intros fuel chain bs. simpl. by rewrite Hn, Hself.
  - intros chain id. apply invalidated_invalidateChain_in.
  - intros chain id. apply invalidateChain_lookup_notin.
  - unfold propagateUpdate. simpl. by rewrite Hn, Hself.
Qed.

Lemma self_accepting_is_boundary_witness :
  propagateUpdate 0 7 Examples.selfAccepting1 []
  = Ret (false, invalidateChain [0] 7 Examples.selfAccepting1, [(0, 0)]).
Proof.
  apply (self_accepting_is_boundary Examples.selfAccepting1 0
           (Examples.script "/n.js" true [] []) 7); reflexivity.
Defined.

(** C6: on a heap whose importers are all nodes of the heap, the walk
    from any node of the heap and with any chain returns: there is one
    result that every depth bound above the number of nodes yields,
    and the call with the default chain yields it too.  Import cycles
    are not excluded. *)
Theorem propagateUpdate_terminates (st : gmap nat ModuleNode) node ts chain bs :
  closed st ->
  is_Some (st !! node) ->
  exists r,
    (forall fuel, size st < fuel ->
       propagateUpdate_fuel fuel node ts chain st bs = Ret r) /\
    (chain = [node] -> propagateUpdate node ts st bs = Ret r).
Proof.
  intros Hcl Hnode.
  destruct (propagateUpdate_returns ts (S (size st)) node chain st bs) as [r Hr];
    [done|done| |].
  - rewrite <- size_dom. apply Nat.lt_succ_r, subseteq_size.
    intros x. rewrite elem_of_difference. tauto.
  - exists r. split.
    + intros fuel Hfuel. eapply propagateUpdate_fuel_mono; [|exact Hr]. lia.
    + intros ->. exact Hr.
Qed.

Lemma propagateUpdate_terminates_witness :
  closed Examples.cycle3 /\ is_Some (Examples.cycle3 !! 0) /\
  exists r,
    (forall fuel, size Examples.cycle3 < fuel ->
       propagateUpdate_fuel fuel 0 7 [0] Examples.cycle3 [] = Ret r) /\
    ([0] = [0] -> propagateUpdate 0 7 Examples.cycle3 [] = Ret r).
Proof.
  assert (Hcl : closed Examples.cycle3) by (apply (bool_decide_unpack (closed Examples.cycle3)); vm_compute; exact I).
  assert (Hn : is_Some (Examples.cycle3 !! 0)) by (eexists; reflexivity).
  split; [exact Hcl|]. split; [exact Hn|].
  exact (propagateUpdate_terminates Examples.cycle3 0 7 [0] [] Hcl Hn).
Defined.

(** On the three-module cycle the walk comes back to its starting node
    and stops there: no boundary, no dead end, nothing written. *)
Example cycle3_walk :
  propagateUpdate 0 7 Examples.cycle3 [] = Ret (false, Examples.cycle3, []).
Proof. vm_compute. reflexivity. Qed.

(** The loop over a list of importers is the loop over a prefix
    followed, unless the prefix met a dead end, by the loop over the
    rest. *)
Lemma walkImporters_app fuel node ts chain pre post (st : gmap nat ModuleNode) bs :
  walkImporters fuel node ts chain (pre ++ post) st bs =
  match walkImporters fuel node ts chain pre st bs with
  | Ret (false, st1, bs1) => walkImporters fuel node ts chain post st1 bs1
  | other => other
  end.
Proof.
  unfold walkImporters. revert st bs.
  induction pre as [|imp pre IH]; intros st bs; [done|].
  simpl. destruct (st !! imp); [|done].
  case_bool_decide; [apply IH|].
  case_bool_decide; [apply IH|].
  destruct (propagateUpdate_fuel fuel imp ts (chain ++ [imp]) st bs)
    as [[[[] s'] bs']| | |]; [done|apply IH|done..].
Qed.

Lemma propagateUpdate_unfold fuel node ts chain (st : gmap nat ModuleNode) bs n :
  st !! node = Some n -> isSelfAccepting n = false -> importers n <> [] ->
  propagateUpdate_fuel (S fuel) node ts chain st bs
  = walkImporters fuel node ts chain (importers n) st bs.
Proof.
  intros Hn Hself Himps. simpl. rewrite Hn, Hself.
  by rewrite bool_decide_false.
Qed.

(** C10: let the loop over the first importers of a node end without
    a dead end, leaving the heap [st1], and let the whole call answer
    [true] all the same.  Then whatever is invalidated in [st1] is
    invalidated in the heap the call leaves: a dead end undoes none of
    the writes made for the branches before it. *)
Theorem dead_end_keeps_earlier_invalidation
    fuel node ts chain (st st1 st' : gmap nat ModuleNode) bs bs1 bs' n pre post :
  st !! node = Some n ->
  isSelfAccepting n = false ->
  importers n = pre ++ post ->
  walkImporters fuel node ts chain pre st bs = Ret (false, st1, bs1) ->
  propagateUpdate_fuel (S fuel) node ts chain st bs = Ret (true, st', bs') ->
  forall id, invalidated ts st1 id -> invalidated ts st' id.
Proof.
  intros Hn Hself Himps Hpre Hrun id Hid.
  destruct (decide (importers n = [])) as [Hnil|Hne].
  - rewrite Hnil in Himps. symmetry in Himps. apply app_eq_nil in Himps as [-> ->].
    simpl in Hrun. rewrite Hn, Hself, Hnil in Hrun. simpl in Hrun.
    unfold walkImporters in Hpre. simpl in Hpre. congruence.
  - rewrite (propagateUpdate_unfold _ _ _ _ _ _ n) in Hrun by done.
    rewrite Himps, walkImporters_app, Hpre in Hrun.
    assert (Hnode1 : is_Some (st1 !! node)).
    { apply (walkImporters_invariant ts (fun _ _ => True)) in Hpre as [Hsg _]; eauto.
      apply (same_graph_is_Some _ _ node Hsg). eauto. }
    pose proof (walkImporters_invariant ts (fun s _ => invalidated ts s id)) as Hinv.
    eapply Hinv in Hrun; [exact (proj2 Hrun)| |exact Hnode1|exact Hid].
    intros. by apply invalidated_invalidateChain.
Qed.

Lemma dead_end_keeps_earlier_invalidation_witness :
  ~ invalidated 7 Examples.twoImporters 1 /\
  exists st' bs',
    propagateUpdate 0 7 Examples.twoImporters [] = Ret (true, st', bs') /\
    invalidated 7 st' 0 /\ invalidated 7 st' 1.
Proof.
  split.
  { intros (n & Hn & Ht & _). vm_compute in Hn. inversion Hn; subst. discriminate. }
  destruct (propagateUpdate 0 7 Examples.twoImporters []) as [[[b st'] bs']| | |] eqn:Hrun;
    try (vm_compute in Hrun; discriminate).
  assert (b = true) as -> by (vm_compute in Hrun; congruence).
  exists st', bs'. split; [done|].
  pose proof (dead_end_keeps_earlier_invalidation
                3 0 7 [0] Examples.twoImporters
                (invalidateChain [0; 1] 7 Examples.twoImporters) st'
                [] [(1, 0)] bs'
                (Examples.script "/n.js" false [] [1; 2]) [1] [2]
                eq_refl eq_refl eq_refl eq_refl Hrun) as Hkeep.
  split; apply Hkeep; eexists; (split; [reflexivity|done]).
Defined.

(** ** The prune handler *)

Lemma foldl_alter_lookup (f : ModuleNode -> ModuleNode) l (st : gmap nat ModuleNode) id :
  (forall n, f (f n) = f n) ->
  foldl (fun s m => alter f m s) st l !! id
  = if decide (id ∈ l) then f <$> st !! id else st !! id.
Proof.
  intros Hf. revert st. induction l as [|m l IH]; intros st.
  - simpl. destruct (decide (id ∈ [])) as [Hin|]; [|done].
    by apply not_elem_of_nil in Hin.
  - simpl foldl. rewrite IH.
    destruct (decide (id ∈ m :: l)) as [Hin|Hnin];
      destruct (decide (id ∈ l)) as [Hl|Hl].
    + destruct (decide (m = id)) as [->|Hne].
      * rewrite lookup_alter_eq. destruct (st !! id); simpl; [|done]. by rewrite Hf.
      * by rewrite lookup_alter_ne.
    + apply elem_of_cons in Hin as [->|?]; [|done]. by rewrite lookup_alter_eq.
    + exfalso. apply Hnin. by right.
    + rewrite lookup_alter_ne; [done|]. intros ->. apply Hnin. by left.
Qed.

Lemma same_graph_foldl_alter (f : ModuleNode -> ModuleNode) l (st : gmap nat ModuleNode) :
  (forall n, same_shape n (f n)) ->
  same_graph st (foldl (fun s m => alter f m s) st l).
Proof.
  intros Hf. revert st. induction l as [|m l IH]; intros st; simpl.
  - apply same_graph_refl.
  - eapply same_graph_trans; [|apply IH]. by apply same_graph_alter.
Qed.

Lemma urlsOf_same_graph (st s : gmap nat ModuleNode) mods :
  same_graph st s ->
  Forall (fun m => is_Some (st !! m)) mods ->
  exists paths,
    urlsOf s mods = Ret paths /\
    Forall2 (fun m p => exists n, st !! m = Some n /\ url n = p) mods paths.
Proof.
  intros Hsg. induction mods as [|m mods IH]; intros Hall.
  - exists []. split; [done|constructor].
  - apply Forall_cons in Hall as [[n Hn] Hrest].
    destruct (IH Hrest) as (paths & Hpaths & Hrel).
    destruct (same_graph_lookup _ _ _ _ Hsg Hn) as (n' & Hn' & Hsh).
    exists (url n' :: paths). simpl. rewrite Hn', Hpaths. split; [done|].
    constructor; [|done]. exists n. split; [done|]. symmetry. apply Hsh.
Qed.

(** C7: given a set of nodes of the heap, the prune handler sends one
    message, of type [prune], whose [paths] are the urls of the nodes
    in the order of the set; in the heap it leaves, every node of the
    set has the one timestamp [t] as its [lastHMRTimestamp] and is
    otherwise as before, and every other node is untouched. *)
Theorem prune_stamps_and_lists_urls mods t (st : gmap nat ModuleNode) :
  Forall (fun m => is_Some (st !! m)) mods ->
  exists st' paths,
    handlePrunedModules mods t st
    = Ret ([JObj [("type", JStr "prune"); ("paths", JArr (JStr <$> paths))]], st') /\
    Forall2 (fun m p => exists n, st !! m = Some n /\ url n = p) mods paths /\
    (forall m, m ∈ mods ->
       exists n', st' !! m = Some n' /\ lastHMRTimestamp n' = t) /\
    (forall id,
       st' !! id = if decide (id ∈ mods) then touch t <$> st !! id else st !! id).
Proof.
  intros Hall. unfold handlePrunedModules.
  set (st' := foldl (fun s m => alter (touch t) m s) st mods).
  assert (Hsg : same_graph st st').
  { apply same_graph_foldl_alter. apply same_shape_touch. }
  destruct (urlsOf_same_graph st st' mods Hsg Hall) as (paths & -> & Hrel).
  assert (Hlook : forall id,
             st' !! id = if decide (id ∈ mods) then touch t <$> st !! id else st !! id).
  { intros id. by apply foldl_alter_lookup. }
  exists st', paths. repeat split; [done| |done].
  intros m Hm. rewrite Forall_forall in Hall. destruct (Hall m Hm) as [n Hn].
  exists (touch t n). rewrite Hlook, decide_True, Hn by done. done.
Qed.

Lemma prune_stamps_and_lists_urls_witness :
  Forall (fun m => is_Some (Examples.twoImporters !! m)) [2; 0] /\
  exists st',
    handlePrunedModules [2; 0] 9 Examples.twoImporters
    = Ret ([JObj [("type", JStr "prune");
                  ("paths", JArr [JStr "/b.js"; JStr "/n.js"])]], st') /\
    (forall m, m ∈ [2; 0] -> exists n', st' !! m = Some n' /\ lastHMRTimestamp n' = 9%Z).
Proof.
  assert (Hall : Forall (fun m => is_Some (Examples.twoImporters !! m)) [2; 0]).
  { repeat constructor; eexists; reflexivity. }
  split; [exact Hall|].
  destruct (prune_stamps_and_lists_urls [2; 0] 9 Examples.twoImporters Hall)
    as (st' & paths & Hrun & _ & Hstamp & _).
  exists st'. split; [|exact Hstamp].
  assert (Hc : handlePrunedModules [2; 0] 9 Examples.twoImporters
               = Ret ([JObj [("type", JStr "prune");
                             ("paths", JArr [JStr "/b.js"; JStr "/n.js"])]],
                      foldl (fun s m => alter (touch 9) m s) Examples.twoImporters [2; 0]))
    by (vm_compute; reflexivity).
  rewrite Hrun. rewrite Hc in Hrun. inversion Hrun as [[Hp Hs]]. reflexivity.
Defined.

(** ** The orchestrator *)

Lemma updateRecords_returns (st : gmap nat ModuleNode) ts bs :
  boundaries_in st bs -> exists us, updateRecords st ts bs = Ret us.
Proof.
  induction bs as [|[b via] bs IH]; intros Hin; [by exists []|].
  apply Forall_cons in Hin as [[[nb Hb] [nv Hv]] Hrest]. simpl in Hb, Hv.
  destruct (IH Hrest) as [us Hus].
  simpl. unfold updateRecord. simpl. rewrite Hb, Hv, Hus. eauto.
Qed.

Lemma updateLoop_same_graph ts mods :
  forall ups (st : gmap nat ModuleNode) sent st',
    updateLoop mods ts ups st = Ret (sent, st') -> same_graph st st'.
Proof.
  induction mods as [|m mods IH]; intros ups st sent st' Hrun; simpl in Hrun.
  - inversion Hrun; subst. apply same_graph_refl.
  - destruct (propagateUpdate m ts st []) as [[[b s'] bs']| | |] eqn:Hwalk;
      try discriminate.
    apply propagateUpdate_same_graph in Hwalk.
    destruct b.
    + inversion Hrun; subst. done.
    + destruct (updateRecords s' ts bs'); try discriminate.
      eapply same_graph_trans; [exact Hwalk|]. eapply IH. exact Hrun.
Qed.

Lemma applyPlugins_same_graph ps :
  hooksKeepGraph ps ->
  forall file mods (st : gmap nat ModuleNode) mods' st',
    applyPlugins ps file mods st = Ret (mods', st') -> same_graph st st'.
Proof.
  induction ps as [|p ps IH]; intros Hkeep file mods st mods' st' Hrun; simpl in Hrun.
  - inversion Hrun; subst. apply same_graph_refl.
  - apply Forall_cons in Hkeep as [Hp Hps].
    destruct (handleHotUpdate p) as [hook|] eqn:Hhook; [|by eapply IH].
    specialize (Hp hook eq_refl file mods st).
    destruct (hook file mods st) as [[reason|[ms|]] s1]; [discriminate|..];
      simpl in Hp; (eapply same_graph_trans; [exact Hp|by eapply IH]).
Qed.

(** Whether a walk meets a dead end is a matter of the graph, not of
    the stamps. *)
Lemma deadEnd_same_graph ts (st st' : gmap nat ModuleNode) m :
  same_graph st st' -> deadEnd ts st m -> deadEnd ts st' m.
Proof.
  intros Hsg (s & bs & Hrun). unfold deadEnd, propagateUpdate in *.
  rewrite (same_graph_size _ _ Hsg).
  destruct (propagateUpdate_shape ts _ _ _ _ st' _ [] _ Hsg Hrun)
    as ([[b2 s2] bs2] & Hrun2 & Hb & _).
  simpl in Hb. subst b2. eauto.
Qed.

Lemma updateLoop_dead_end ts mods :
  forall ups (st : gmap nat ModuleNode),
    closed st ->
    Forall (fun m => is_Some (st !! m)) mods ->
    Exists (deadEnd ts st) mods ->
    exists st', updateLoop mods ts ups st = Ret ([fullReload], st').
Proof.
  induction mods as [|m mods IH]; intros ups st Hcl Hall Hdead.
  - inversion Hdead.
  - apply Forall_cons in Hall as [Hm Hrest].
    destruct (propagateUpdate_default_returns ts st m [] Hcl Hm) as ([[b s'] bs'] & Hrun).
    simpl. rewrite Hrun.
    destruct b; [eauto|].
    pose proof (propagateUpdate_same_graph _ _ _ _ _ _ _ _ _ Hrun) as Hsg.
    assert (Hin : boundaries_in s' bs').
    { eapply propagateUpdate_boundaries_in; [|exact Hrun]. constructor. }
    destruct (updateRecords_returns s' ts bs' Hin) as [us ->].
    apply IH.
    + by apply (same_graph_closed st).
    + eapply Forall_impl; [exact Hrest|]. intros x Hx. simpl in Hx.
      by apply (same_graph_is_Some _ _ x Hsg).
    + apply Exists_cons in Hdead as [(s & bs & Hhead)|Htail].
      * congruence.
      * eapply Exists_impl; [exact Htail|]. intros x. by apply deadEnd_same_graph.
Qed.

(** C4: let the file be one that reaches the module loop, and let the
    plugin hooks settle with the set [filteredMods] in a heap whose
    importers are all present.  If the walk from some module of the
    set reports a dead end, the orchestrator sends one message and no
    more: the [full-reload] with no [path].  No [update] goes out,
    whatever boundaries the modules before it had produced. *)
Theorem dead_end_sends_one_full_reload
    CLIENT_DIR path_relative slash file server now
    (st st1 : gmap nat ModuleNode) mods filteredMods :
  configPath (config server) <> Some file ->
  endsWith file ".env" = false ->
  endsWith file ".html" = false ->
  startsWith file CLIENT_DIR = false ->
  getModulesByFile (moduleGraph server) file = Some mods ->
  applyPlugins (plugins (config server)) file mods st = Ret (filteredMods, st1) ->
  closed st1 ->
  Forall (fun m => is_Some (st1 !! m)) filteredMods ->
  Exists (deadEnd now st1) filteredMods ->
  exists st',
    handleHMRUpdate CLIENT_DIR path_relative slash file server now st
    = Ret ([fullReload], st') /\
    prop "type" fullReload = Some (JStr "full-reload") /\
    prop "path" fullReload = None.
Proof.
  intros Hcfg Henv Hhtml Hclient Hmods Hplug Hcl Hall Hdead.
  destruct (updateLoop_dead_end now filteredMods [] st1 Hcl Hall Hdead) as [st' Hrun].
  exists st'. split; [|done].
  unfold handleHMRUpdate.
  rewrite bool_decide_false by done.
  by rewrite Henv, Hhtml, Hclient, Hmods, Hplug.
Qed.

Lemma dead_end_sends_one_full_reload_witness :
  exists st',
    Examples.runHMRUpdate "/src/n.js" (Examples.serverFor [0; 1] []) 7
      Examples.acceptingThenDeadEnd
    = Ret ([fullReload], st') /\
    prop "type" fullReload = Some (JStr "full-reload") /\
    prop "path" fullReload = None.
Proof.
  apply (dead_end_sends_one_full_reload "/client" (fun _ f => f) (fun p => p)
           "/src/n.js" (Examples.serverFor [0; 1] []) 7
           Examples.acceptingThenDeadEnd Examples.acceptingThenDeadEnd [0; 1] [0; 1]).
  - discriminate.
  - reflexivity.
  - reflexivity.
  - reflexivity.
  - reflexivity.
  - reflexivity.
  - apply (bool_decide_unpack (closed Examples.acceptingThenDeadEnd)). vm_compute. exact I.
  - repeat constructor; eexists; reflexivity.
  - apply Exists_cons_tl, Exists_cons_hd. eexists _, _. vm_compute. reflexivity.
Defined.

(** A file that is neither the config file, nor an env file, nor an
    html file, nor under the client directory, and that the graph
    knows, goes through the plugin hooks and then the module loop. *)
Lemma handleHMRUpdate_module_file
    CLIENT_DIR path_relative slash file server now (st : gmap nat ModuleNode) mods :
  configPath (config server) <> Some file ->
  endsWith file ".env" = false ->
  endsWith file ".html" = false ->
  startsWith file CLIENT_DIR = false ->
  getModulesByFile (moduleGraph server) file = Some mods ->
  handleHMRUpdate CLIENT_DIR path_relative slash file server now st =
  match applyPlugins (plugins (config server)) file mods st with
  | Ret (filteredMods, st1) => updateLoop filteredMods now [] st1
  | Dangling id => Dangling id
  | OutOfFuel => OutOfFuel
  | Rejected reason => Rejected reason
  end.
Proof.
  intros Hcfg Henv Hhtml Hclient Hmods. unfold handleHMRUpdate.
  rewrite bool_decide_false by done.
  by rewrite Henv, Hhtml, Hclient, Hmods.
Qed.

(** C2, as the code has it: the hooks are run one after the other in
    the order of the plugin list, each on the set and the heap its
    predecessor left; a plugin without a hook is passed over; a hook
    that settles to no value leaves the set as it is; a hook that
    settles to a list, the empty list included, makes that list the
    set.  The set the last hook leaves is the one the module loop
    runs on. *)
Theorem hooks_reduce_in_order :
  (forall file mods (st : gmap nat ModuleNode),
      applyPlugins [] file mods st = Ret (mods, st)) /\
  (forall p rest file mods (st : gmap nat ModuleNode),
      handleHotUpdate p = None ->
      applyPlugins (p :: rest) file mods st = applyPlugins rest file mods st) /\
  (forall p rest file mods (st st' : gmap nat ModuleNode) hook,
      handleHotUpdate p = Some hook ->
      hook file mods st = (HookResolved None, st') ->
      applyPlugins (p :: rest) file mods st = applyPlugins rest file mods st') /\
  (forall p rest file mods mods' (st st' : gmap nat ModuleNode) hook,
      handleHotUpdate p = Some hook ->
      hook file mods st = (HookResolved (Some mods'), st') ->
      applyPlugins (p :: rest) file mods st = applyPlugins rest file mods' st') /\
  (forall CLIENT_DIR path_relative slash file server now
          (st st1 : gmap nat ModuleNode) mods filteredMods,
      configPath (config server) <> Some file ->
      endsWith file ".env" = false ->
      endsWith file ".html" = false ->
      startsWith file CLIENT_DIR = false ->
      getModulesByFile (moduleGraph server) file = Some mods ->
      applyPlugins (plugins (config server)) file mods st = Ret (filteredMods, st1) ->
      handleHMRUpdate CLIENT_DIR path_relative slash file server now st
      = updateLoop filteredMods now [] st1).
Proof.
  repeat split.
  - intros p rest file mods st Hnone. simpl. by rewrite Hnone.
  - intros p rest file mods st st' hook Hhook Hres. simpl. by rewrite Hhook, Hres.
  - intros p rest file mods mods' st st' hook Hhook Hres. simpl. by rewrite Hhook, Hres.
  - intros CLIENT_DIR path_relative slash file server now st st1 mods filteredMods
           Hcfg Henv Hhtml Hclient Hmods Hplug.
    rewrite (handleHMRUpdate_module_file _ _ _ _ _ _ _ mods) by done.
    by rewrite Hplug.
Qed.

Lemma hooks_reduce_in_order_witness :
  applyPlugins [Examples.constantHook None; mkPlugin None; Examples.constantHook (Some [1])]
    "/src/n.js" [0] Examples.acceptingThenDeadEnd
  = Ret ([1], Examples.acceptingThenDeadEnd).
Proof.
  destruct hooks_reduce_in_order as (Hnil & Hskip & Hnone & Hsome & _).
  rewrite (Hnone (Examples.constantHook None) _ "/src/n.js" [0]
             Examples.acceptingThenDeadEnd Examples.acceptingThenDeadEnd _
             eq_refl eq_refl).
  rewrite (Hskip (mkPlugin None) _ "/src/n.js" [0] Examples.acceptingThenDeadEnd eq_refl).
  rewrite (Hsome (Examples.constantHook (Some [1])) [] "/src/n.js" [0] [1]
             Examples.acceptingThenDeadEnd Examples.acceptingThenDeadEnd _
             eq_refl eq_refl).
  apply Hnil.
Defined.

(** C2, as stated, fails: a hook that settles to the empty list turns
    the set [[0]] into the empty set, and the orchestrator then sends
    an [update] with no record and leaves module 0 unstamped. *)
Lemma empty_hook_result_replaces_set :
  applyPlugins [Examples.constantHook (Some [])] "/src/n.js" [0] Examples.selfAccepting1
  = Ret ([], Examples.selfAccepting1) /\
  applyPlugins [Examples.constantHook (Some [])] "/src/n.js" [0] Examples.selfAccepting1
  <> Ret ([0], Examples.selfAccepting1) /\
  Examples.runHMRUpdate "/src/n.js"
    (Examples.serverFor [0] [Examples.constantHook (Some [])]) 7 Examples.selfAccepting1
  = Ret ([updateMessage []], Examples.selfAccepting1).
Proof.
  split; [reflexivity|]. split; [discriminate|]. vm_compute. reflexivity.
Qed.

(** C1: every record of the [update] message has the four properties
    [type], [timestamp], [path] and [accpetedPath]; a property named
    [acceptedPath] is not among them.  For one self-accepting module
    the message sent is the one shown. *)
Theorem update_record_misspells_acceptedPath :
  (forall (st : gmap nat ModuleNode) ts b,
      match updateRecord st ts b with
      | Ret u =>
          keys u = ["type"; "timestamp"; "path"; "accpetedPath"] /\
          prop "acceptedPath" u = None
      | _ => True
      end) /\
  Examples.runHMRUpdate "/src/n.js" (Examples.serverFor [0] []) 7 Examples.selfAccepting1
  = Ret ([updateMessage
            [JObj [("type", JStr "js-update");
                   ("timestamp", JNum 7);
                   ("path", JStr "/n.js");
                   ("accpetedPath", JStr "/n.js")]]],
         invalidateChain [0] 7 Examples.selfAccepting1).
Proof.
  split.
  - intros st ts [b via]. unfold updateRecord. simpl.
    destruct (st !! b); [|done]. destruct (st !! via); done.
  - vm_compute. reflexivity.
Qed.

(** C9: invalidating a chain, the walk, the prune handler and the
    orchestrator leave a heap with the nodes of the heap they were
    given, none added and none removed, each with its [url], [file],
    [type], [isSelfAccepting], [acceptedHmrDeps] and [importers] as
    before.  For the orchestrator this is so as long as the plugin
    hooks it awaits do no more themselves; what the orchestrator
    writes itself, after the hooks have settled, never does more. *)
Theorem core_only_stamps :
  (forall chain ts (st : gmap nat ModuleNode),
      same_graph st (invalidateChain chain ts st)) /\
  (forall fuel node ts chain (st st' : gmap nat ModuleNode) bs b bs',
      propagateUpdate_fuel fuel node ts chain st bs = Ret (b, st', bs') ->
      same_graph st st') /\
  (forall mods t (st st' : gmap nat ModuleNode) sent,
      handlePrunedModules mods t st = Ret (sent, st') ->
      same_graph st st' /\
      forall id, transformResult <$> st' !! id = transformResult <$> st !! id) /\
  (forall CLIENT_DIR path_relative slash file server now
          (st st' : gmap nat ModuleNode) sent,
      hooksKeepGraph (plugins (config server)) ->
      handleHMRUpdate CLIENT_DIR path_relative slash file server now st = Ret (sent, st') ->
      same_graph st st') /\
  (forall CLIENT_DIR path_relative slash file server now
          (st st' : gmap nat ModuleNode) sent,
      handleHMRUpdate CLIENT_DIR path_relative slash file server now st = Ret (sent, st') ->
      exists st1,
        same_graph st1 st' /\
        (st1 = st \/
         exists mods filteredMods,
           getModulesByFile (moduleGraph server) file = Some mods /\
           applyPlugins (plugins (config server)) file mods st = Ret (filteredMods, st1))).
Proof.
  split; [|split; [|split; [|split]]].
  - intros. apply same_graph_invalidateChain.
  - intros. eapply propagateUpdate_same_graph; eassumption.
  - intros mods t st st' sent Hrun. unfold handlePrunedModules in Hrun.
    destruct (urlsOf _ mods); try discriminate. inversion Hrun; subst. split.
    + apply same_graph_foldl_alter, same_shape_touch.
    + intros id. rewrite (foldl_alter_lookup (touch t)) by done.
      case_decide; [|done]. by destruct (st !! id).
  - intros CLIENT_DIR path_relative slash file server now st st' sent Hkeep Hrun.
    unfold handleHMRUpdate in Hrun.
    case_bool_decide; [inversion Hrun; subst; apply same_graph_refl|].
    destruct (endsWith file ".env"); [inversion Hrun; subst; apply same_graph_refl|].
    destruct (endsWith file ".html" || startsWith file CLIENT_DIR);
      [inversion Hrun; subst; apply same_graph_refl|].
    destruct (getModulesByFile _ file) as [mods|];
      [|inversion Hrun; subst; apply same_graph_refl].
    destruct (applyPlugins _ file mods st) as [[fm st1]| | |] eqn:Hplug; try discriminate.
    eapply same_graph_trans.
    + eapply applyPlugins_same_graph; eassumption.
    + eapply updateLoop_same_graph; eassumption.
  - intros CLIENT_DIR path_relative slash file server now st st' sent Hrun.
    unfold handleHMRUpdate in Hrun.
    case_bool_decide;
      [inversion Hrun; subst; exists st'; split; [apply same_graph_refl|by left]|].
    destruct (endsWith file ".env");
      [inversion Hrun; subst; exists st'; split; [apply same_graph_refl|by left]|].
    destruct (endsWith file ".html" || startsWith file CLIENT_DIR);
      [inversion Hrun; subst; exists st'; split; [apply same_graph_refl|by left]|].
    destruct (getModulesByFile _ file) as [mods|];
      [|inversion Hrun; subst; exists st'; split; [apply same_graph_refl|by left]].
    destruct (applyPlugins _ file mods st) as [[fm st1]| | |] eqn:Hplug; try discriminate.
    exists st1. split; [eapply updateLoop_same_graph; eassumption|].
    right. by exists mods, fm.
Qed.

Lemma core_only_stamps_witness :
  hooksKeepGraph [Examples.constantHook None] /\
  same_graph Examples.selfAccepting1 (invalidateChain [0] 7 Examples.selfAccepting1).
Proof.
  assert (Hkeep : hooksKeepGraph [Examples.constantHook None]).
  { constructor; [|constructor]. intros hook Hhook file mods st.
    inversion Hhook; subst. apply same_graph_refl. }
  split; [exact Hkeep|].
  destruct core_only_stamps as (_ & _ & _ & Hhmr & _).
  apply (Hhmr "/client" (fun _ f => f) (fun p => p) "/src/n.js"
           (Examples.serverFor [0] [Examples.constantHook None]) 7%Z
           Examples.selfAccepting1 (invalidateChain [0] 7 Examples.selfAccepting1)
           [updateMessage
              [JObj [("type", JStr "js-update");
                     ("timestamp", JNum 7);
                     ("path", JStr "/n.js");
                     ("accpetedPath", JStr "/n.js")]]]).
  - exact Hkeep.
  - vm_compute. reflexivity.
Defined.

(** * Further properties of the walk *)

Lemma stamp_fmap_idemp ts (o : option ModuleNode) :
  stamp ts <$> (stamp ts <$> o) = stamp ts <$> o.
Proof. by destruct o. Qed.

Lemma invalidateChain_lookup chain ts (st : gmap nat ModuleNode) id :
  invalidateChain chain ts st !! id
  = if decide (id ∈ chain) then stamp ts <$> st !! id else st !! id.
Proof.
  case_decide.
  - by apply invalidateChain_lookup_in.
  - by apply invalidateChain_lookup_notin.
Qed.

(** X1: invalidating a chain is a matter of which nodes are on it,
    not of their order or of repetitions, and doing it twice with one
    timestamp is doing it once. *)
Theorem invalidateChain_set_idempotent chain1 chain2 ts (st : gmap nat ModuleNode) :
  (forall id, id ∈ chain1 <-> id ∈ chain2) ->
  invalidateChain chain1 ts st = invalidateChain chain2 ts st /\
  invalidateChain chain2 ts (invalidateChain chain1 ts st) = invalidateChain chain1 ts st.
Proof.
  intros Hsame. split; apply map_eq; intros id; rewrite !invalidateChain_lookup.
  - destruct (decide (id ∈ chain1)) as [H1|H1], (decide (id ∈ chain2)) as [H2|H2];
      try done.
    + exfalso. by apply Hsame in H1.
    + exfalso. by apply Hsame in H2.
  - destruct (decide (id ∈ chain1)) as [H1|H1], (decide (id ∈ chain2)) as [H2|H2];
      try done.
    + apply stamp_fmap_idemp.
    + exfalso. by apply Hsame in H2.
Qed.

Lemma invalidateChain_set_idempotent_witness :
  invalidateChain [0; 1] 7 Examples.twoImporters
  = invalidateChain [1; 0; 1] 7 Examples.twoImporters.
Proof.
  apply (invalidateChain_set_idempotent [0; 1] [1; 0; 1] 7 Examples.twoImporters).
  intros id. rewrite !elem_of_cons, !elem_of_nil. tauto.
Defined.

(** X2: the walk keeps the boundaries it was given and adds to their
    end; it writes the heap only when it adds a boundary, so a walk
    that adds none leaves every node as it was; and whatever it
    writes to a node is the timestamp and the cleared cache. *)
Theorem walk_writes_with_boundaries fuel node ts chain
    (st st' : gmap nat ModuleNode) bs bs' b :
  propagateUpdate_fuel fuel node ts chain st bs = Ret (b, st', bs') ->
  exists added,
    bs' = bs ++ added /\
    (added = [] -> st' = st) /\
    (forall id, st' !! id = st !! id \/ st' !! id = stamp ts <$> st !! id).
Proof.
  intros Hrun.
  apply (propagateUpdate_invariant ts
           (fun s b' => exists added,
                b' = bs ++ added /\ (added = [] -> s = st) /\
                (forall id, s !! id = st !! id \/ s !! id = stamp ts <$> st !! id)))
    in Hrun as [_ H]; [exact H| |].
  - clear. intros s b' ch id via (added & -> & _ & Hl) _ _.
    exists (added ++ [(id, via)]). split; [by rewrite app_assoc|]. split.
    + intros Hnil. by apply app_eq_nil in Hnil as [_ ?].
    + intros j. rewrite invalidateChain_lookup. case_decide; [|apply Hl].
      right. destruct (Hl j) as [->| ->]; [done|apply stamp_fmap_idemp].
  - exists (@nil (nat * nat)). split; [by rewrite app_nil_r|]. split; [done|]. intros; by left.
Qed.

Lemma walk_writes_with_boundaries_witness :
  exists added : list (nat * nat),
    [(1, 0)] = [] ++ added /\
    (added = [] -> invalidateChain [0; 1] 7 Examples.twoImporters = Examples.twoImporters) /\
    (forall id,
        invalidateChain [0; 1] 7 Examples.twoImporters !! id
        = Examples.twoImporters !! id \/
        invalidateChain [0; 1] 7 Examples.twoImporters !! id
        = stamp 7 <$> Examples.twoImporters !! id).
Proof.
  apply (walk_writes_with_boundaries 4 0 7 [0] Examples.twoImporters
           (invalidateChain [0; 1] 7 Examples.twoImporters) [] [(1, 0)] true).
  vm_compute. reflexivity.
Defined.

Lemma acceptanceEdge_same_graph (st st' : gmap nat ModuleNode) e :
  same_graph st st' -> acceptanceEdge st e -> acceptanceEdge st' e.
Proof.
  intros Hsg [[Heq (n & Hn & Hself)]|(imp & v & Hi & Hv & Hacc & Himp)].
  - left. split; [done|].
    destruct (same_graph_lookup _ _ _ _ Hsg Hn) as (n' & Hn' & Hsh).
    exists n'. split; [done|]. destruct Hsh as (_&_&_&->&_). done.
  - right.
    destruct (same_graph_lookup _ _ _ _ Hsg Hi) as (imp' & Hi' & Hshi).
    destruct (same_graph_lookup _ _ _ _ Hsg Hv) as (v' & Hv' & Hshv).
    exists imp', v'. repeat split; [done|done| |].
    + destruct Hshi as (_&_&_&_&->&_). done.
    + destruct Hshv as (_&_&_&_&_&->). done.
Qed.

Lemma importersLoop_edges
    (rec : nat -> list nat -> gmap nat ModuleNode -> list (nat * nat) ->
           Outcome (bool * gmap nat ModuleNode * list (nat * nat)))
    node ts chain (st0 : gmap nat ModuleNode) n :
  st0 !! node = Some n ->
  (forall imp sub s b r,
      same_graph st0 s -> rec imp sub s b = Ret r ->
      same_graph s r.1.2 /\
      exists added, r.2 = b ++ added /\ Forall (acceptanceEdge st0) added) ->
  forall imps (st : gmap nat ModuleNode) bs r,
    same_graph st0 st ->
    Forall (fun i => i ∈ importers n) imps ->
    importersLoop rec node ts chain imps st bs = Ret r ->
    exists added, r.2 = bs ++ added /\ Forall (acceptanceEdge st0) added.
Proof.
  intros Hnode Hrec.
  induction imps as [|imp rest IH]; intros st bs r Hsg Himps Hrun; simpl in Hrun.
  - inversion Hrun; subst. exists (@nil (nat * nat)). by rewrite app_nil_r.
  - apply Forall_cons in Himps as [Himp Hrest].
    destruct (st !! imp) as [i|] eqn:Hi; [|discriminate].
    case_bool_decide as Hacc.
    + apply IH in Hrun as (added & -> & Hadded); [| |done].
      * exists ((imp, node) :: added). split; [by rewrite <- app_assoc|].
        constructor; [|done].
        apply (acceptanceEdge_same_graph st); [by apply same_graph_sym|].
        right. destruct (same_graph_lookup _ _ _ _ Hsg Hnode) as (n' & Hn' & Hsh).
        exists i, n'. repeat split; [done|done|done|].
        simpl. destruct Hsh as (_&_&_&_&_&->). done.
      * eapply same_graph_trans; [exact Hsg|apply same_graph_invalidateChain].
    + case_bool_decide; [by eapply IH|].
      destruct (rec imp (chain ++ [imp]) st bs) as [[[b s'] bs']| | |] eqn:Hcall;
        try discriminate.
      destruct (Hrec _ _ _ _ _ Hsg Hcall) as (Hsg' & added & Hbs' & Hadded).
      simpl in Hsg', Hbs'. subst bs'. destruct b.
      * inversion Hrun; subst. eauto.
      * apply IH in Hrun as (added' & -> & Hadded'); [| |done].
        -- exists (added ++ added'). split; [by rewrite app_assoc|].
           by apply Forall_app.
        -- eapply same_graph_trans; eassumption.
Qed.

(** X3: every boundary the walk adds is an acceptance in the graph:
    either a self-accepting node paired with itself, or an importer
    paired with a module it imports and lists among its accepted
    dependencies. *)
Theorem walk_boundaries_are_acceptances ts fuel :
  forall node chain (st st' : gmap nat ModuleNode) bs bs' b,
    propagateUpdate_fuel fuel node ts chain st bs = Ret (b, st', bs') ->
    exists added, bs' = bs ++ added /\ Forall (acceptanceEdge st) added.
Proof.
  induction fuel as [|fuel IH]; intros node chain st st' bs bs' b Hrun; [discriminate|].
  simpl in Hrun. destruct (st !! node) as [n|] eqn:Hnode; [|discriminate].
  destruct (isSelfAccepting n) eqn:Hself.
  - inversion Hrun; subst. exists [(node, node)]. split; [done|].
    constructor; [|constructor]. left. split; [done|]. eauto.
  - case_bool_decide.
    + inversion Hrun; subst. exists (@nil (nat * nat)). by rewrite app_nil_r.
    + eapply (importersLoop_edges _ node ts chain st n Hnode) in Hrun;
        [exact Hrun| |apply same_graph_refl|by apply Forall_forall].
      intros imp sub s b0 [[b1 s1] bs1] Hsg Hcall. simpl.
      split; [eapply propagateUpdate_same_graph; exact Hcall|].
      destruct (IH _ _ _ _ _ _ _ Hcall) as (added & -> & Hadded).
      exists added. split; [done|].
      eapply Forall_impl; [exact Hadded|].
      intros e. apply acceptanceEdge_same_graph. by apply same_graph_sym.
Qed.

Lemma walk_boundaries_are_acceptances_witness :
  exists added, [(1, 0)] = [] ++ added /\ Forall (acceptanceEdge Examples.twoImporters) added.
Proof.
  apply (walk_boundaries_are_acceptances 7 4 0 [0] Examples.twoImporters
           (invalidateChain [0; 1] 7 Examples.twoImporters) [] [(1, 0)] true).
  vm_compute. reflexivity.
Defined.

Lemma importersLoop_verdict
    (rec1 rec2 : nat -> list nat -> gmap nat ModuleNode -> list (nat * nat) ->
                 Outcome (bool * gmap nat ModuleNode * list (nat * nat)))
    node ts1 ts2 chain :
  (forall imp sub (s1 s2 : gmap nat ModuleNode) b1 b2 r1,
      same_graph s1 s2 -> rec1 imp sub s1 b1 = Ret r1 ->
      exists s2' added,
        r1.2 = b1 ++ added /\
        rec2 imp sub s2 b2 = Ret (r1.1.1, s2', b2 ++ added) /\
        same_graph r1.1.2 s2') ->
  forall imps (st1 st2 : gmap nat ModuleNode) bs1 bs2 r1,
    same_graph st1 st2 ->
    importersLoop rec1 node ts1 chain imps st1 bs1 = Ret r1 ->
    exists s2' added,
      r1.2 = bs1 ++ added /\
      importersLoop rec2 node ts2 chain imps st2 bs2 = Ret (r1.1.1, s2', bs2 ++ added) /\
      same_graph r1.1.2 s2'.
Proof.
  intros Hrec. induction imps as [|imp rest IH]; intros st1 st2 bs1 bs2 r1 Hsg Hrun.
  - simpl in *. inversion Hrun; subst. exists st2, []. simpl.
    by rewrite !app_nil_r.
  - simpl in *. destruct (st1 !! imp) as [n1|] eqn:H1; [|discriminate].
    destruct (same_graph_lookup _ _ _ _ Hsg H1) as (n2 & -> & Hsh).
    destruct Hsh as (_&_&_&_&->&_).
    case_bool_decide.
    + eapply (IH _ (invalidateChain (chain ++ [imp]) ts2 st2) _
                (bs2 ++ [(imp, node)])) in Hrun as (s2' & added & -> & Hrun2 & Hsg').
      * exists s2', ((imp, node) :: added). rewrite Hrun2.
        by rewrite <- !app_assoc.
      * eapply same_graph_trans; [apply same_graph_sym, same_graph_invalidateChain|].
        eapply same_graph_trans; [exact Hsg|apply same_graph_invalidateChain].
    + case_bool_decide; [by eapply IH|].
      destruct (rec1 imp (chain ++ [imp]) st1 bs1) as [[[b s1'] bs1']| | |] eqn:Hcall;
        try discriminate.
      destruct (Hrec _ _ _ st2 _ bs2 _ Hsg Hcall) as (s2' & added & Hbs & -> & Hsg').
      simpl in Hbs, Hsg'. subst bs1'. destruct b.
      * inversion Hrun; subst. simpl. eauto.
      * eapply (IH _ s2' _ (bs2 ++ added)) in Hrun as (s2'' & added' & -> & -> & Hsg'');
          [|done].
        exists s2'', (added ++ added'). by rewrite !app_assoc.
Qed.

(** X4: whether the walk meets a dead end, and which boundaries it
    adds, is decided by the graph: two heaps with the same nodes that
    differ in stamps and cached results only, walked with whatever
    timestamps and whatever boundary sets, give the same verdict and
    the same added boundaries. *)
Theorem walk_verdict_depends_on_graph fuel :
  forall node chain ts1 ts2 (st1 st2 st1' : gmap nat ModuleNode) bs1 bs2 bs1' b,
    same_graph st1 st2 ->
    propagateUpdate_fuel fuel node ts1 chain st1 bs1 = Ret (b, st1', bs1') ->
    exists st2' added,
      bs1' = bs1 ++ added /\
      propagateUpdate_fuel fuel node ts2 chain st2 bs2 = Ret (b, st2', bs2 ++ added) /\
      same_graph st1' st2'.
Proof.
  induction fuel as [|fuel IH];
    intros node chain ts1 ts2 st1 st2 st1' bs1 bs2 bs1' b Hsg Hrun; [discriminate|].
  simpl in *. destruct (st1 !! node) as [n1|] eqn:H1; [|discriminate].
  destruct (same_graph_lookup _ _ _ _ Hsg H1) as (n2 & -> & Hsh).
  destruct Hsh as (_&_&_&->&_&->).
  destruct (isSelfAccepting n1).
  - inversion Hrun; subst. eexists _, [(node, node)]. split; [done|]. split; [done|].
    eapply same_graph_trans; [apply same_graph_sym, same_graph_invalidateChain|].
    eapply same_graph_trans; [exact Hsg|apply same_graph_invalidateChain].
  - case_bool_decide.
    + inversion Hrun; subst. exists st2, []. by rewrite !app_nil_r.
    + eapply (importersLoop_verdict _ _ node ts1 ts2 chain) in Hrun
        as (s2' & added & Hbs & Hrun2 & Hsg'); [| |exact Hsg].
      * simpl in *. eauto.
      * intros imp sub s1 s2 b1 b2 [[b' s1'] bs'] Hs Hcall. simpl in *.
        eapply IH; eassumption.
Qed.

Lemma walk_verdict_depends_on_graph_witness :
  same_graph Examples.twoImporters (invalidateChain [2] 9 Examples.twoImporters) /\
  exists st2' added,
    [(1, 0)] = [] ++ added /\
    propagateUpdate_fuel 4 0 8 [0] (invalidateChain [2] 9 Examples.twoImporters) [(5, 5)]
    = Ret (true, st2', [(5, 5)] ++ added) /\
    same_graph (invalidateChain [0; 1] 7 Examples.twoImporters) st2'.
Proof.
  split; [apply same_graph_invalidateChain|].
  apply (walk_verdict_depends_on_graph 4 0 [0] 7 8 Examples.twoImporters).
  - apply same_graph_invalidateChain.
  - vm_compute. reflexivity.
Defined.

Lemma invalidateChain_ext chain1 chain2 ts (st : gmap nat ModuleNode) :
  (forall id, id ∈ chain1 <-> id ∈ chain2) ->
  invalidateChain chain1 ts st = invalidateChain chain2 ts st.
Proof.
  intros Hsame. apply map_eq. intros id. rewrite !invalidateChain_lookup.
  destruct (decide (id ∈ chain1)) as [H1|H1], (decide (id ∈ chain2)) as [H2|H2];
    try done.
  - exfalso. by apply Hsame in H1.
  - exfalso. by apply Hsame in H2.
Qed.

Lemma invalidateChain_app chain1 chain2 ts (st : gmap nat ModuleNode) :
  invalidateChain (chain1 ++ chain2) ts st
  = invalidateChain chain2 ts (invalidateChain chain1 ts st).
Proof. unfold invalidateChain. apply foldl_app. Qed.

Lemma invalidate_each_importer chain ts a rest (st : gmap nat ModuleNode) :
  foldl (fun s i => invalidateChain (chain ++ [i]) ts s) st (a :: rest)
  = invalidateChain (chain ++ a :: rest) ts st.
Proof.
  revert a st. induction rest as [|b rest IH]; intros a st; [done|].
  change (foldl (fun s i => invalidateChain (chain ++ [i]) ts s)
                (invalidateChain (chain ++ [a]) ts st) (b :: rest)
          = invalidateChain (chain ++ a :: b :: rest) ts st).
  rewrite IH, <- invalidateChain_app. apply invalidateChain_ext.
  intros id. rewrite !elem_of_app, !elem_of_cons, elem_of_nil. tauto.
Qed.

Lemma importersLoop_all_accept
    (rec : nat -> list nat -> gmap nat ModuleNode -> list (nat * nat) ->
           Outcome (bool * gmap nat ModuleNode * list (nat * nat)))
    node ts chain :
  forall imps (st : gmap nat ModuleNode) bs,
    Forall (fun a => exists i, st !! a = Some i /\ node ∈ acceptedHmrDeps i) imps ->
    importersLoop rec node ts chain imps st bs
    = Ret (false,
           foldl (fun s i => invalidateChain (chain ++ [i]) ts s) st imps,
           bs ++ ((fun a => (a, node)) <$> imps)).
Proof.
  induction imps as [|a rest IH]; intros st bs Hall.
  - simpl. by rewrite app_nil_r.
  - apply Forall_cons in Hall as [(i & Hi & Hacc) Hrest].
    simpl. rewrite Hi, bool_decide_true by done.
    rewrite IH; [by rewrite <- app_assoc|].
    eapply Forall_impl; [exact Hrest|].
    intros x (ix & Hx & Haccx). simpl.
    rewrite invalidateChain_lookup, Hx. case_decide; eauto.
Qed.

(** X5: when every importer of a node that does not accept itself
    lists the node among its accepted dependencies, the walk answers
    [false], adds one boundary per importer, in the order of the
    importers, each paired with the node, and invalidates the chain
    and the importers and nothing else.  This holds at the smallest
    depth bound: the walk does not go above the importers. *)
Theorem all_importers_accept ts (st : gmap nat ModuleNode) node n :
  st !! node = Some n ->
  isSelfAccepting n = false ->
  importers n <> [] ->
  Forall (fun a => exists i, st !! a = Some i /\ node ∈ acceptedHmrDeps i) (importers n) ->
  forall fuel chain bs,
    propagateUpdate_fuel (S fuel) node ts chain st bs
    = Ret (false,
           invalidateChain (chain ++ importers n) ts st,
           bs ++ ((fun a => (a, node)) <$> importers n)).
Proof.
  intros Hn Hself Hne Hall fuel chain bs. simpl.
  rewrite Hn, Hself, bool_decide_false by done.
  rewrite importersLoop_all_accept by done.
  destruct (importers n) as [|a rest]; [done|].
  by rewrite invalidate_each_importer.
Qed.

Lemma all_importers_accept_witness :
  propagateUpdate_fuel 1 1 7 [1] Examples.cycle3Accepting []
  = Ret (false, invalidateChain [1; 0] 7 Examples.cycle3Accepting, [(0, 1)]).
Proof.
  apply (all_importers_accept 7 Examples.cycle3Accepting 1
           (Examples.script "/b.js" false [] [0])).
  - reflexivity.
  - reflexivity.
  - discriminate.
  - repeat constructor. eexists. split; [reflexivity|]. simpl. left.
Defined.

Lemma importedBy_same_graph (st st' : gmap nat ModuleNode) a b :
  same_graph st st' -> importedBy st a b -> importedBy st' a b.
Proof.
  intros Hsg (n & Hn & Hb).
  destruct (same_graph_lookup _ _ _ _ Hsg Hn) as (n' & Hn' & Hsh).
  exists n'. split; [done|]. destruct Hsh as (_&_&_&_&_&->). done.
Qed.

Lemma orphan_same_graph (st st' : gmap nat ModuleNode) id :
  same_graph st st' -> orphan st id -> orphan st' id.
Proof.
  intros Hsg (n & Hn & Hself & Himps).
  destruct (same_graph_lookup _ _ _ _ Hsg Hn) as (n' & Hn' & Hsh).
  exists n'. split; [done|]. destruct Hsh as (_&_&_&->&_&->). done.
Qed.

Lemma importersLoop_dead_end
    (rec : nat -> list nat -> gmap nat ModuleNode -> list (nat * nat) ->
           Outcome (bool * gmap nat ModuleNode * list (nat * nat)))
    node ts chain (st0 : gmap nat ModuleNode) n :
  st0 !! node = Some n ->
  (forall imp sub s b r,
      same_graph st0 s -> rec imp sub s b = Ret r ->
      same_graph s r.1.2 /\
      (r.1.1 = true ->
       exists leaf, rtc (importedBy st0) imp leaf /\ orphan st0 leaf)) ->
  forall imps (st : gmap nat ModuleNode) bs r,
    same_graph st0 st ->
    Forall (fun i => i ∈ importers n) imps ->
    importersLoop rec node ts chain imps st bs = Ret r ->
    r.1.1 = true ->
    exists leaf, rtc (importedBy st0) node leaf /\ orphan st0 leaf.
Proof.
  intros Hnode Hrec.
  induction imps as [|imp rest IH]; intros st bs r Hsg Himps Hrun Htrue; simpl in Hrun.
  - inversion Hrun; subst. discriminate.
  - apply Forall_cons in Himps as [Himp Hrest].
    destruct (st !! imp) as [i|] eqn:Hi; [|discriminate].
    case_bool_decide.
    + eapply IH; [|done|exact Hrun|done].
      eapply same_graph_trans; [exact Hsg|apply same_graph_invalidateChain].
    + case_bool_decide; [by eapply IH|].
      destruct (rec imp (chain ++ [imp]) st bs) as [[[b s'] bs']| | |] eqn:Hcall;
        try discriminate.
      destruct (Hrec _ _ _ _ _ Hsg Hcall) as (Hsg' & Hleaf). simpl in Hsg', Hleaf.
      destruct b.
      * destruct (Hleaf eq_refl) as (leaf & Hpath & Horph).
        exists leaf. split; [|done].
        eapply rtc_l; [|exact Hpath]. by exists n.
      * eapply IH; [|done|exact Hrun|done].
        eapply same_graph_trans; eassumption.
Qed.

(** X6: a dead end is never reported without cause: when the walk
    answers [true], some module reached from the starting node by
    going from a module to one of its importers, any number of times,
    neither accepts itself nor has an importer. *)
Theorem dead_end_reaches_an_orphan ts fuel :
  forall node chain (st st' : gmap nat ModuleNode) bs bs',
    propagateUpdate_fuel fuel node ts chain st bs = Ret (true, st', bs') ->
    exists leaf, rtc (importedBy st) node leaf /\ orphan st leaf.
Proof.
  induction fuel as [|fuel IH]; intros node chain st st' bs bs' Hrun; [discriminate|].
  simpl in Hrun. destruct (st !! node) as [n|] eqn:Hnode; [|discriminate].
  destruct (isSelfAccepting n) eqn:Hself; [discriminate|].
  case_bool_decide as Himps.
  - exists node. split; [apply rtc_refl|]. by exists n.
  - eapply (importersLoop_dead_end _ node ts chain st n Hnode);
      [|apply same_graph_refl|by apply Forall_forall|exact Hrun|done].
    intros imp sub s b [[b1 s1] bs1] Hsg Hcall. simpl.
    split; [eapply propagateUpdate_same_graph; exact Hcall|].
    intros ->. destruct (IH _ _ _ _ _ _ Hcall) as (leaf & Hpath & Horph).
    exists leaf. split.
    + eapply rtc_subrel; [|exact Hpath].
      intros x y. apply importedBy_same_graph. by apply same_graph_sym.
    + eapply orphan_same_graph; [|exact Horph]. by apply same_graph_sym.
Qed.

Lemma dead_end_reaches_an_orphan_witness :
  exists leaf,
    rtc (importedBy Examples.twoImporters) 0 leaf /\ orphan Examples.twoImporters leaf.
Proof.
  apply (dead_end_reaches_an_orphan 7 4 0 [0] Examples.twoImporters
           (invalidateChain [0; 1] 7 Examples.twoImporters) [] [(1, 0)]).
  vm_compute. reflexivity.
Defined.

(** * Further properties of the orchestrator *)






Lemma updateLoop_self_accepting ts mods :
  forall ups (st : gmap nat ModuleNode),
    Forall (fun m => exists n, st !! m = Some n /\ isSelfAccepting n = true) mods ->
    exists us,
      updateLoop mods ts ups st
      = Ret ([updateMessage (ups ++ us)], invalidateChain mods ts st) /\
      Forall2 (fun m u => exists n, st !! m = Some n /\ u = recordOf n n ts) mods us.
Proof.
  induction mods as [|m mods IH]; intros ups st Hall.
  - exists []. simpl. rewrite app_nil_r. split; [done|constructor].
  - apply Forall_cons in Hall as [(n & Hn & Hself) Hrest].
    assert (Hwalk : propagateUpdate m ts st []
                    = Ret (false, invalidateChain [m] ts st, [(m, m)])).
    { unfold propagateUpdate. simpl. by rewrite Hn, Hself. }
    assert (Hm1 : invalidateChain [m] ts st !! m = Some (stamp ts n)).
    { rewrite invalidateChain_lookup, decide_True, Hn by left. done. }
    destruct (IH (ups ++ [recordOf n n ts]) (invalidateChain [m] ts st))
      as (us & Hrun & Hrel).
    { eapply Forall_impl; [exact Hrest|]. intros x (nx & Hx & Hsx). cbv beta.
      rewrite invalidateChain_lookup, Hx. case_decide; eauto. }
    exists (recordOf n n ts :: us). split.
    + cbn [updateLoop]. rewrite Hwalk. cbn [updateRecords].
      unfold updateRecord. cbn [fst snd]. rewrite Hm1.
      fold (recordOf (stamp ts n) (stamp ts n) ts).
      change (recordOf (stamp ts n) (stamp ts n) ts) with (recordOf n n ts).
      rewrite Hrun. by rewrite <- app_assoc.
    + constructor; [eauto|].
      eapply Forall2_impl; [exact Hrel|].
      intros x u (nx & Hx & ->). cbv beta.
      rewrite invalidateChain_lookup in Hx.
      destruct (st !! x) as [nx0|] eqn:Hx0; [|by case_decide].
      exists nx0. split; [done|]. case_decide; by inversion Hx.
Qed.

(** X8: when the hooks leave a set of modules that all accept
    themselves, the orchestrator sends one [update] with one record
    per module, in the order of the set, whose [path] and accepted
    path are both the url of the module and whose [type] is the type
    of the module followed by [-update]; the modules of the set are
    invalidated and no other node is written. *)
Theorem self_accepting_batch_updates_each
    CLIENT_DIR path_relative slash file server now
    (st st1 : gmap nat ModuleNode) mods filteredMods :
  configPath (config server) <> Some file ->
  endsWith file ".env" = false ->
  endsWith file ".html" = false ->
  startsWith file CLIENT_DIR = false ->
  getModulesByFile (moduleGraph server) file = Some mods ->
  applyPlugins (plugins (config server)) file mods st = Ret (filteredMods, st1) ->
  Forall (fun m => exists n, st1 !! m = Some n /\ isSelfAccepting n = true) filteredMods ->
  exists us,
    handleHMRUpdate CLIENT_DIR path_relative slash file server now st
    = Ret ([updateMessage us], invalidateChain filteredMods now st1) /\
    Forall2 (fun m u => exists n, st1 !! m = Some n /\ u = recordOf n n now)
            filteredMods us.
Proof.
  intros Hcfg Henv Hhtml Hclient Hmods Hplug Hall.
  destruct (updateLoop_self_accepting now filteredMods [] st1 Hall) as (us & Hrun & Hrel).
  exists us. split; [|done].
  rewrite (handleHMRUpdate_module_file _ _ _ _ _ _ _ mods) by done.
  by rewrite Hplug.
Qed.

Lemma self_accepting_batch_updates_each_witness :
  exists us,
    Examples.runHMRUpdate "/src/n.js" (Examples.serverFor [0] []) 7 Examples.selfAccepting1
    = Ret ([updateMessage us], invalidateChain [0] 7 Examples.selfAccepting1) /\
    Forall2 (fun m u => exists n, Examples.selfAccepting1 !! m = Some n /\
                                  u = recordOf n n 7) [0] us.
Proof.
  apply (self_accepting_batch_updates_each "/client" (fun _ f => f) (fun p => p)
           "/src/n.js" (Examples.serverFor [0] []) 7
           Examples.selfAccepting1 Examples.selfAccepting1 [0] [0]).
  - discriminate.
  - reflexivity.
  - reflexivity.
  - reflexivity.
  - reflexivity.
  - reflexivity.
  - repeat constructor. eexists. split; reflexivity.
Defined.

(** X9: running the hooks of a list of plugins is running those of
    its first part and then, on the set and the heap they leave, those
    of the rest; a rejection in the first part is the outcome, and no
    hook of the rest is run. *)
Theorem applyPlugins_app ps1 ps2 file mods (st : gmap nat ModuleNode) :
  applyPlugins (ps1 ++ ps2) file mods st =
  match applyPlugins ps1 file mods st with
  | Ret (mods1, st1) => applyPlugins ps2 file mods1 st1
  | Dangling id => Dangling id
  | OutOfFuel => OutOfFuel
  | Rejected reason => Rejected reason
  end.
Proof.
  revert mods st. induction ps1 as [|p ps1 IH]; intros mods st; [done|].
  simpl. destruct (handleHotUpdate p) as [hook|]; [|apply IH].
  destruct (hook file mods st) as [[reason|[ms|]] s1]; [done|apply IH..].
Qed.

Lemma updateLoop_verdict ts mods :
  forall ups (st : gmap nat ModuleNode),
    closed st ->
    Forall (fun m => is_Some (st !! m)) mods ->
    exists sent st',
      updateLoop mods ts ups st = Ret (sent, st') /\
      (Exists (deadEnd ts st) mods -> sent = [fullReload]) /\
      (~ Exists (deadEnd ts st) mods -> exists us, sent = [updateMessage (ups ++ us)]).
Proof.
  induction mods as [|m mods IH]; intros ups st Hcl Hall.
  - exists [updateMessage ups], st. split; [done|]. split.
    + intros H. inversion H.
    + intros _. exists []. by rewrite app_nil_r.
  - apply Forall_cons in Hall as [Hm Hrest].
    destruct (propagateUpdate_default_returns ts st m [] Hcl Hm) as ([[b s'] bs'] & Hrun).
    cbn [updateLoop]. rewrite Hrun. destruct b.
    + exists [fullReload], s'. split; [done|]. split; [done|].
      intros Hno. exfalso. apply Hno. apply Exists_cons_hd. by exists s', bs'.
    + pose proof (propagateUpdate_same_graph _ _ _ _ _ _ _ _ _ Hrun) as Hsg.
      assert (Hin : boundaries_in s' bs').
      { eapply propagateUpdate_boundaries_in; [|exact Hrun]. constructor. }
      destruct (updateRecords_returns s' ts bs' Hin) as [us ->].
      destruct (IH (ups ++ us) s') as (sent & st' & Hloop & Hdead & Hlive).
      { by apply (same_graph_closed st). }
      { eapply Forall_impl; [exact Hrest|]. intros x Hx. cbv beta in Hx.
        by apply (same_graph_is_Some _ _ x Hsg). }
      exists sent, st'. split; [done|]. split.
      * intros Hex. apply Hdead. apply Exists_cons in Hex as [(s & bs & Hhead)|Htail].
        -- congruence.
        -- eapply Exists_impl; [exact Htail|]. intros x. by apply deadEnd_same_graph.
      * intros Hno. destruct Hlive as [us' ->].
        -- intros Hex. apply Hno. apply Exists_cons_tl.
           eapply Exists_impl; [exact Hex|]. intros x.
           apply deadEnd_same_graph. by apply same_graph_sym.
        -- exists (us ++ us'). by rewrite app_assoc.
Qed.

(** X10: for a file that reaches the module loop, on a heap whose
    importers are all present, the orchestrator completes, and what it
    sends is settled by the walks: the bare [full-reload] when the
    walk from some module of the set meets a dead end, one [update]
    when none does. *)
Theorem update_or_reload_by_dead_ends
    CLIENT_DIR path_relative slash file server now
    (st st1 : gmap nat ModuleNode) mods filteredMods :
  configPath (config server) <> Some file ->
  endsWith file ".env" = false ->
  endsWith file ".html" = false ->
  startsWith file CLIENT_DIR = false ->
  getModulesByFile (moduleGraph server) file = Some mods ->
  applyPlugins (plugins (config server)) file mods st = Ret (filteredMods, st1) ->
  closed st1 ->
  Forall (fun m => is_Some (st1 !! m)) filteredMods ->
  exists sent st',
    handleHMRUpdate CLIENT_DIR path_relative slash file server now st = Ret (sent, st') /\
    (Exists (deadEnd now st1) filteredMods -> sent = [fullReload]) /\
    (~ Exists (deadEnd now st1) filteredMods -> exists us, sent = [updateMessage us]).
Proof.
  intros Hcfg Henv Hhtml Hclient Hmods Hplug Hcl Hall.
  destruct (updateLoop_verdict now filteredMods [] st1 Hcl Hall)
    as (sent & st' & Hrun & Hdead & Hlive).
  exists sent, st'. split; [|done].
  rewrite (handleHMRUpdate_module_file _ _ _ _ _ _ _ mods) by done.
  by rewrite Hplug.
Qed.

Lemma update_or_reload_by_dead_ends_witness :
  exists sent st',
    Examples.runHMRUpdate "/src/n.js" (Examples.serverFor [0] []) 7 Examples.cycle3
    = Ret (sent, st') /\
    (Exists (deadEnd 7 Examples.cycle3) [0] -> sent = [fullReload]) /\
    (~ Exists (deadEnd 7 Examples.cycle3) [0] -> exists us, sent = [updateMessage us]).
Proof.
  apply (update_or_reload_by_dead_ends "/client" (fun _ f => f) (fun p => p)
           "/src/n.js" (Examples.serverFor [0] []) 7
           Examples.cycle3 Examples.cycle3 [0] [0]).
  - discriminate.
  - reflexivity.
  - reflexivity.
  - reflexivity.
  - reflexivity.
  - reflexivity.
  - apply (bool_decide_unpack (closed Examples.cycle3)). vm_compute. exact I.
  - repeat constructor. eexists. reflexivity.
Defined.

(** * Further properties of the lexer *)

Lemma reaches_trans code i r j r' k r'' :
  reaches code i r j r' -> reaches code j r' k r'' -> reaches code i r k r''.
Proof.
  induction 1 as [|i r c r1 j r' Hc Hstep Hrest IH]; intros Hnext; [done|].
  eapply reaches_next; eauto.
Qed.

Lemma reaches_same code i r r' : reaches code i r i r' -> r = r'.
Proof.
  inversion 1 as [|? ? ? ? ? ? _ _ Hrest]; subst; [done|].
  apply reaches_le in Hrest. lia.
Qed.

Lemma reaches_bound code i r j r' :
  reaches code i r j r' -> i = j \/ j <= String.length code.
Proof.
  induction 1 as [|i r c r1 j r' Hc Hstep Hrest IH]; [by left|].
  right. destruct IH as [<-|?]; [|done]. by apply charAt_Some_lt in Hc.
Qed.

(** X11: when the loop runs off the end of the text, or starts at or
    past it, the call answers [false] and the set holds what had been
    added by then; the text of a literal that was never closed is not
    added. *)
Theorem end_of_input_answers_false code start urls0 i r :
  reaches code start (mkRegs inCall inCall "" urls0) i r ->
  String.length code <= i ->
  lexAcceptedHmrDeps code start urls0 = Returned false (urls r).
Proof.
  intros Hreach Hend. unfold lexAcceptedHmrDeps.
  destruct (reaches_bound _ _ _ _ _ Hreach) as [<-|Hle].
  - apply reaches_same in Hreach as <-.
    by replace (String.length code - start) with 0 by lia.
  - assert (i = String.length code) as -> by lia.
    apply reaches_le in Hreach as Hsl.
    replace (String.length code - start) with (0 + (String.length code - start)) by lia.
    by rewrite (lex_from_reaches _ _ _ _ _ Hreach).
Qed.

Lemma end_of_input_answers_false_witness :
  lexAcceptedHmrDeps "['a','bc" 0 [] = Returned false ["a"].
Proof.
  apply (end_of_input_answers_false "['a','bc" 0 [] 8
           (mkRegs inSingleQuoteString inArray "bc" ["a"])).
  - repeat (eapply reaches_next; [reflexivity|reflexivity|]). apply reaches_here.
  - simpl. lia.
Defined.

Lemma Set_add_extends x (us : list string) : exists added, Set_add x us = us ++ added.
Proof.
  unfold Set_add. case_bool_decide; [exists []; by rewrite app_nil_r|eauto].
Qed.

Lemma lex_char_extends code i c r r' :
  lex_char code i c r = Next r' -> exists added, urls r' = urls r ++ added.
Proof.
  assert (Hrefl : exists added : list string, urls r = urls r ++ added)
    by (exists []; by rewrite app_nil_r).
  unfold lex_char, error. intros H.
  repeat case_match; inversion H; subst; simpl; try done; apply Set_add_extends.
Qed.

Lemma lex_char_stops code i c r res :
  lex_char code i c r = Stop res ->
  res = Returned true (urls r) \/ res = Returned false (urls r) \/ res = Thrown i (urls r).
Proof.
  unfold lex_char, error. intros H.
  repeat case_match; inversion H; subst; eauto.
Qed.

Lemma lex_from_extends code fuel :
  forall i r, exists added,
    match lex_from fuel code i r with
    | Returned _ out => out = urls r ++ added
    | Thrown pos out => out = urls r ++ added /\ i <= pos < String.length code
    end.
Proof.
  induction fuel as [|fuel IH]; intros i r; simpl.
  - exists []. by rewrite app_nil_r.
  - destruct (charAt code i) as [c|] eqn:Hc; [|exists []; by rewrite app_nil_r].
    apply charAt_Some_lt in Hc as Hlt.
    destruct (lex_char code i c r) as [r'|res] eqn:Hstep.
    + destruct (lex_char_extends _ _ _ _ _ Hstep) as [a1 Ha1].
      destruct (IH (S i) r') as [a2 Ha2]. exists (a1 ++ a2).
      destruct (lex_from fuel code (S i) r').
      * by rewrite Ha2, Ha1, app_assoc.
      * destruct Ha2 as [-> ?]. rewrite Ha1, app_assoc. split; [done|lia].
    + exists []. rewrite app_nil_r.
      destruct (lex_char_stops _ _ _ _ _ Hstep) as [->|[->| ->]]; [done|done|].
      split; [done|lia].
Qed.

(** X12: the lexer only ever adds to the caller's set: whatever the
    text and however the call ends, the set afterwards is the set
    before with the added urls after it.  When the call ends with the
    error, its [pos] is the offset of a character of the text, at or
    after the starting offset. *)
Theorem lexer_extends_set code start urls0 :
  exists added,
    match lexAcceptedHmrDeps code start urls0 with
    | Returned _ out => out = urls0 ++ added
    | Thrown pos out => out = urls0 ++ added /\ start <= pos < String.length code
    end.
Proof.
  unfold lexAcceptedHmrDeps.
  apply (lex_from_extends code _ start (mkRegs inCall inCall "" urls0)).
Qed.

(** ** Text standing in the source *)

Lemma append_nil_r (s : string) : s +:+ "" = s.
Proof.
  induction s as [|c s IH]; [done|].
  change (String c (s +:+ "") = String c s). by rewrite IH.
Qed.

Lemma append_assoc (a b c : string) : (a +:+ b) +:+ c = a +:+ (b +:+ c).
Proof.
  induction a as [|x a IH]; [done|].
  change (String x ((a +:+ b) +:+ c) = String x (a +:+ (b +:+ c))). by rewrite IH.
Qed.

Lemma length_append (a b : string) :
  String.length (a +:+ b) = String.length a + String.length b.
Proof.
  induction a as [|x a IH]; [done|].
  change (S (String.length (a +:+ b)) = S (String.length a + String.length b)).
  by rewrite IH.
Qed.

Lemma occurs_cons code i c s :
  occurs code i (String c s) -> charAt code i = Some c /\ occurs code (S i) s.
Proof.
  intros H. split.
  - specialize (H 0). simpl in H. rewrite Nat.add_0_r in H. apply H. lia.
  - intros k Hk. specialize (H (S k)). simpl in H.
    replace (S i + k) with (i + S k) by lia. apply H. lia.
Qed.

Lemma occurs_app code a : forall i b,
  occurs code i (a +:+ b) -> occurs code i a /\ occurs code (i + String.length a) b.
Proof.
  induction a as [|c a IH]; intros i b H; simpl in *.
  - split; [intros k Hk; simpl in Hk; lia|]. by rewrite Nat.add_0_r.
  - apply occurs_cons in H as [Hc Hrest]. apply IH in Hrest as [Ha Hb]. split.
    + intros [|k] Hk; simpl.
      * by rewrite Nat.add_0_r.
      * replace (i + S k) with (S i + k) by lia. apply Ha. simpl in Hk. lia.
    + by replace (i + S (String.length a)) with (S i + String.length a) by lia.
Qed.

Lemma whitespace_is_no_quote c :
  isWhitespace c = true ->
  Ascii.eqb c squote = false /\ Ascii.eqb c dquote = false /\
  Ascii.eqb c backtick = false.
Proof.
  intros Hws. repeat split; apply Ascii.eqb_neq; intros ->; discriminate.
Qed.

Lemma skip_whitespace code r :
  state r = inCall \/ state r = inArray ->
  forall n start,
    (forall k, k < n -> exists c, charAt code (start + k) = Some c /\ isWhitespace c = true) ->
    reaches code start r (start + n) r.
Proof.
  intros Hstate. induction n as [|n IH]; intros start Hws.
  - rewrite Nat.add_0_r. apply reaches_here.
  - destruct (Hws 0) as (c & Hc & Hwsc); [lia|]. rewrite Nat.add_0_r in Hc.
    destruct (whitespace_is_no_quote c Hwsc) as (Hs & Hd & Hb).
    eapply reaches_next; [exact Hc| |].
    + unfold lex_char. destruct Hstate as [-> | ->]; by rewrite Hs, Hd, Hb, Hwsc.
    + replace (start + S n) with (S start + n) by lia. apply IH.
      intros k Hk. replace (S start + k) with (start + S k) by lia. apply Hws. lia.
Qed.

(** X13: a call whose first argument, after any blanks, starts with a
    character that is no quote and no opening bracket (a callback, or
    the closing parenthesis of a call without arguments) is answered
    [true], and the set is left as it was. *)
Theorem callback_or_empty_call_self_accepts code start urls0 n c :
  (forall k, k < n -> exists w, charAt code (start + k) = Some w /\ isWhitespace w = true) ->
  charAt code (start + n) = Some c ->
  isWhitespace c = false ->
  c <> squote -> c <> dquote -> c <> backtick -> c <> "["%char ->
  lexAcceptedHmrDeps code start urls0 = Returned true urls0.
Proof.
  intros Hws Hc Hnws Hs Hd Hb Hbr.
  pose proof (skip_whitespace code (mkRegs inCall inCall "" urls0) (or_introl eq_refl)
                n start Hws) as Hreach.
  rewrite (lexAcceptedHmrDeps_reaches _ _ _ _ _ _ Hreach Hc).
  apply Ascii.eqb_neq in Hs, Hd, Hb, Hbr.
  unfold lex_char. simpl. by rewrite Hs, Hd, Hb, Hnws, Hbr.
Qed.

Lemma callback_or_empty_call_self_accepts_witness :
  lexAcceptedHmrDeps "accept(  () => {})" 7 ["./old.js"] = Returned true ["./old.js"] /\
  lexAcceptedHmrDeps "accept()" 7 [] = Returned true [].
Proof.
  split.
  - apply (callback_or_empty_call_self_accepts "accept(  () => {})" 7 ["./old.js"] 2 "("%char).
    + intros [|[|k]] Hk; [eexists; split; reflexivity..|lia].
    + reflexivity.
    + reflexivity.
    + discriminate.
    + discriminate.
    + discriminate.
    + discriminate.
  - apply (callback_or_empty_call_self_accepts "accept()" 7 [] 0 ")"%char).
    + intros k Hk. lia.
    + reflexivity.
    + reflexivity.
    + discriminate.
    + discriminate.
    + discriminate.
    + discriminate.
Defined.

(** ** Scanning a quoted literal *)

Section Scan.

(** A quote character, the string state it opens, and what closing
    it leaves in the buffer. *)
Variable q : ascii.
Variable Sq : LexerState.
Variable after : string -> string.

Hypothesis H_open : forall code i r,
  state r = inCall \/ state r = inArray ->
  lex_char code i q r = Next (mkRegs Sq (state r) (currentDep r) (urls r)).

Hypothesis H_close : forall code i p d us,
  lex_char code i q (mkRegs Sq p d us) = Next (mkRegs p p (after d) (Set_add d us)).

Hypothesis H_body : forall code i c p d us,
  literalChar q c = true ->
  lex_char code i c (mkRegs Sq p d us) = Next (mkRegs Sq p (push d c) us).

Lemma scan_body code : forall body i p d us,
  occurs code i body ->
  allChars (literalChar q) body = true ->
  reaches code i (mkRegs Sq p d us)
          (i + String.length body) (mkRegs Sq p (d +:+ body) us).
Proof.
  induction body as [|c body IH]; intros i p d us Hocc Hall; simpl.
  - rewrite Nat.add_0_r, append_nil_r. apply reaches_here.
  - simpl in Hall. apply andb_prop in Hall as [Hc Hall].
    apply occurs_cons in Hocc as [Hat Hocc].
    eapply reaches_next; [exact Hat|by apply H_body|].
    replace (i + S (String.length body)) with (S i + String.length body) by lia.
    replace (d +:+ String c body) with (push d c +:+ body)
      by (unfold push; by rewrite append_assoc).
    by apply IH.
Qed.

Lemma scan_quoted code i s r :
  state r = inCall \/ state r = inArray ->
  occurs code i (quoted q s) ->
  allChars (literalChar q) s = true ->
  reaches code i r (i + String.length (quoted q s))
          (mkRegs (state r) (state r) (after (currentDep r +:+ s))
                  (Set_add (currentDep r +:+ s) (urls r))).
Proof.
  intros Hstate Hocc Hall. unfold quoted in *.
  apply occurs_cons in Hocc as [Hopen Hocc].
  apply occurs_app in Hocc as [Hbody Hclose].
  apply occurs_cons in Hclose as [Hclose _].
  eapply reaches_next; [exact Hopen|by apply H_open|].
  eapply reaches_trans; [by apply scan_body|].
  eapply reaches_next; [exact Hclose|apply H_close|].
  simpl. rewrite length_append. simpl.
  replace (i + S (String.length s + 1)) with (S (S i + String.length s)) by lia.
  apply reaches_here.
Qed.

Hypothesis H_reset : forall d, after d = "".

Lemma scan_entry code i s p us :
  occurs code i (quoted q s) ->
  allChars (literalChar q) s = true ->
  reaches code i (mkRegs inArray p "" us)
          (i + String.length (quoted q s))
          (mkRegs inArray inArray "" (Set_add s us)).
Proof.
  intros Hocc Hs.
  pose proof (scan_quoted code i s (mkRegs inArray p "" us)
                (or_intror eq_refl) Hocc Hs) as Hreach.
  cbn [state currentDep urls] in Hreach. rewrite H_reset in Hreach. exact Hreach.
Qed.

Lemma scan_entries code : forall l i p us,
  occurs code i (String.concat "," (quoted q <$> l)) ->
  Forall (fun s => allChars (literalChar q) s = true) l ->
  exists p',
    reaches code i (mkRegs inArray p "" us)
            (i + String.length (String.concat "," (quoted q <$> l)))
            (mkRegs inArray p' "" (addAll l us)).
Proof.
  induction l as [|s l IH]; intros i p us Hocc Hall.
  - exists p. change (String.length (String.concat "," (quoted q <$> []))) with 0.
    rewrite Nat.add_0_r. apply reaches_here.
  - apply Forall_cons in Hall as [Hs Hl].
    destruct l as [|s' l].
    + exists inArray. by apply scan_entry.
    + change (String.concat "," (quoted q <$> s :: s' :: l))
        with (quoted q s +:+ "," +:+ String.concat "," (quoted q <$> s' :: l)) in *.
      apply occurs_app in Hocc as [Hq Hocc].
      apply occurs_cons in Hocc as [Hcomma Hocc].
      destruct (IH (S (i + String.length (quoted q s))) inArray (Set_add s us) Hocc Hl)
        as [p' Hrest].
      exists p'. eapply reaches_trans; [by apply scan_entry|].
      eapply reaches_next; [exact Hcomma|reflexivity|].
      rewrite length_append.
      change (String.length ("," +:+ String.concat "," (quoted q <$> s' :: l)))
        with (S (String.length (String.concat "," (quoted q <$> s' :: l)))).
      replace (i + (String.length (quoted q s)
                    + S (String.length (String.concat "," (quoted q <$> s' :: l)))))
        with (S (i + String.length (quoted q s))
              + String.length (String.concat "," (quoted q <$> s' :: l)))
        by lia.
      exact Hrest.
Qed.

End Scan.

Lemma literalChar_not_quote q c : literalChar q c = true -> Ascii.eqb c q = false.
Proof.
  unfold literalChar. intros H. apply andb_prop in H as [H _].
  by apply negb_true_iff in H.
Qed.

(** Each of the three quotes opens its string state, takes any
    literal character into the buffer, and on closing adds the buffer
    to the set; the single quote and the backtick empty the buffer. *)
Lemma quote_kind q :
  q = squote \/ q = dquote \/ q = backtick ->
  exists Sq after,
    (forall code i r,
        state r = inCall \/ state r = inArray ->
        lex_char code i q r = Next (mkRegs Sq (state r) (currentDep r) (urls r))) /\
    (forall code i p d us,
        lex_char code i q (mkRegs Sq p d us)
        = Next (mkRegs p p (after d) (Set_add d us))) /\
    (forall code i c p d us,
        literalChar q c = true ->
        lex_char code i c (mkRegs Sq p d us) = Next (mkRegs Sq p (push d c) us)) /\
    (q <> dquote -> forall d, after d = "").
Proof.
  intros [->|[->| ->]].
  - exists inSingleQuoteString, (fun _ => ""). repeat split.
    + intros code i r [H|H]; unfold lex_char; rewrite H; reflexivity.
    + intros code i c p d us Hc. apply literalChar_not_quote in Hc.
      unfold lex_char. simpl. by rewrite Hc.
  - exists inDoubleQuoteString, (fun d => d). repeat split.
    + intros code i r [H|H]; unfold lex_char; rewrite H; reflexivity.
    + intros code i c p d us Hc. apply literalChar_not_quote in Hc.
      unfold lex_char. simpl. by rewrite Hc.
    + intros Hne. done.
  - exists inTemplateString, (fun _ => ""). repeat split.
    + intros code i r [H|H]; unfold lex_char; rewrite H; reflexivity.
    + intros code i c p d us Hc. unfold literalChar in Hc.
      apply andb_prop in Hc as [Hq Hd].
      apply negb_true_iff in Hq. apply negb_true_iff in Hd. simpl in Hd.
      unfold lex_char. simpl. by rewrite Hq, Hd.
Qed.

(** X14: a call whose first argument is a string literal, in any of
    the three quotes, directly followed by a character that is no
    blank, no quote and no opening bracket (the comma before a
    callback, the closing parenthesis) has the text of the literal
    added to the set and is answered [true]. *)
Theorem literal_first_argument_answers_true code start urls0 q s c :
  q = squote \/ q = dquote \/ q = backtick ->
  occurs code start (quoted q s) ->
  allChars (literalChar q) s = true ->
  charAt code (start + String.length (quoted q s)) = Some c ->
  isWhitespace c = false ->
  c <> squote -> c <> dquote -> c <> backtick -> c <> "["%char ->
  lexAcceptedHmrDeps code start urls0 = Returned true (Set_add s urls0).
Proof.
  intros Hq Hocc Hall Hc Hnws Hs Hd Hb Hbr.
  destruct (quote_kind q Hq) as (Sq & after & Hopen & Hclose & Hbody & _).
  pose proof (scan_quoted q Sq after Hopen Hclose Hbody code start s
                (mkRegs inCall inCall "" urls0) (or_introl eq_refl) Hocc Hall) as Hreach.
  rewrite (lexAcceptedHmrDeps_reaches _ _ _ _ _ _ Hreach Hc).
  apply Ascii.eqb_neq in Hs, Hd, Hb, Hbr.
  unfold lex_char. cbn [state urls]. by rewrite Hs, Hd, Hb, Hnws, Hbr.
Qed.

Lemma literal_first_argument_answers_true_witness :
  lexAcceptedHmrDeps "accept('./a.js', cb)" 7 [] = Returned true ["./a.js"].
Proof.
  apply (literal_first_argument_answers_true "accept('./a.js', cb)" 7 [] squote
           "./a.js" ","%char).
  - by left.
  - intros k Hk. do 8 (destruct k as [|k]; [reflexivity|]). simpl in Hk. lia.
  - reflexivity.
  - reflexivity.
  - reflexivity.
  - discriminate.
  - discriminate.
  - discriminate.
  - discriminate.
Defined.

(** X15: an array literal whose entries are written between single
    quotes, or between backticks without a dollar sign, and separated
    by commas, is lexed to exactly its entries: they are added to the
    set in the order of the array, and the call answers [false] at the
    closing bracket, whatever text follows it. *)
Theorem array_literal_round_trip code start urls0 q l :
  q = squote \/ q = backtick ->
  occurs code start (arrayLiteral q l) ->
  Forall (fun s => allChars (literalChar q) s = true) l ->
  lexAcceptedHmrDeps code start urls0 = Returned false (addAll l urls0).
Proof.
  intros Hq Hocc Hall.
  destruct (quote_kind q) as (Sq & after & Hopen & Hclose & Hbody & Hreset).
  { destruct Hq; auto. }
  assert (Hne : q <> dquote) by (destruct Hq; subst; discriminate).
  specialize (Hreset Hne).
  unfold arrayLiteral in Hocc.
  change ("[" +:+ String.concat "," (quoted q <$> l) +:+ "]")
    with (String "["%char (String.concat "," (quoted q <$> l) +:+ "]")) in Hocc.
  apply occurs_cons in Hocc as [Hbr Hocc].
  apply occurs_app in Hocc as [Hentries Hend].
  apply occurs_cons in Hend as [Hend _].
  destruct (scan_entries q Sq after Hopen Hclose Hbody Hreset code l (S start)
              inCall urls0 Hentries Hall) as [p' Hreach].
  assert (Hall' : reaches code start (mkRegs inCall inCall "" urls0)
                    (S start + String.length (String.concat "," (quoted q <$> l)))
                    (mkRegs inArray p' "" (addAll l urls0))).
  { eapply reaches_next; [exact Hbr|reflexivity|exact Hreach]. }
  by rewrite (lexAcceptedHmrDeps_reaches _ _ _ _ _ _ Hall' Hend).
Qed.

Lemma array_literal_round_trip_witness :
  lexAcceptedHmrDeps "accept(['./a.js','./b.js'], cb)" 7 []
  = Returned false ["./a.js"; "./b.js"].
Proof.
  apply (array_literal_round_trip "accept(['./a.js','./b.js'], cb)" 7 [] squote
           ["./a.js"; "./b.js"]).
  - by left.
  - intros k Hk. do 19 (destruct k as [|k]; [reflexivity|]). simpl in Hk. lia.
  - repeat constructor.
Defined.

(** * The prune handler and the walk together *)

(** X16: pruning changes the outcome of no later walk: in the heap
    the prune handler leaves, the walk from a node meets a dead end
    exactly when it did in the heap before, whatever the timestamps. *)
Theorem prune_keeps_walk_verdicts mods t (st st' : gmap nat ModuleNode) sent :
  handlePrunedModules mods t st = Ret (sent, st') ->
  forall ts node, deadEnd ts st node <-> deadEnd ts st' node.
Proof.
  intros Hrun ts node. unfold handlePrunedModules in Hrun.
  destruct (urlsOf _ mods); try discriminate. inversion Hrun; subst.
  assert (Hsg : same_graph st (foldl (fun s m => alter (touch t) m s) st mods)).
  { apply same_graph_foldl_alter, same_shape_touch. }
  split; apply deadEnd_same_graph; [done|by apply same_graph_sym].
Qed.

Lemma prune_keeps_walk_verdicts_witness :
  deadEnd 7 Examples.twoImporters 0 <->
  deadEnd 7 (foldl (fun s m => alter (touch 9) m s) Examples.twoImporters [2; 0]) 0.
Proof.
  apply (prune_keeps_walk_verdicts [2; 0] 9 Examples.twoImporters
           (foldl (fun s m => alter (touch 9) m s) Examples.twoImporters [2; 0])
           [JObj [("type", JStr "prune");
                  ("paths", JArr [JStr "/b.js"; JStr "/n.js"])]]).
  vm_compute. reflexivity.
Defined.
